(** * The case-records data model of [app/core/models.py]

    A shallow embedding of the model declarations: the account manager
    ([UserManager.create_user], [UserManager.create_superuser]), the common
    record shape ([BaseModel]), the ten case-records entities with the
    [on_delete] policy of each foreign key, and [Motive.__str__].

    The storage layer the declarations rely on (row insertion and update,
    uniqueness, deletion with cascade and set-null, the timestamps of
    [auto_now_add] and [auto_now], the e-mail normalisation helper of the
    base manager) is the framework's; it is modelled here by explicit state
    passing over finite maps from primary keys to rows. *)

From Stdlib Require Import ZArith String Ascii List Sorted Lia.
From stdpp Require Import gmap strings.

Local Open Scope string_scope.

(** ** Outcomes of fallible operations *)

(** The exceptions the modelled code can raise.  [ValueError] is what the
    specification calls InvalidInput, [IntegrityError] what it calls
    Conflict. *)
Inductive Exception : Type :=
  | ValueError (msg : string)
  | TypeError
  | AttributeError
  | IntegrityError
  | DataError
  | DoesNotExist.

Inductive Outcome (A : Type) : Type :=
  | Return (a : A)
  | Raise (e : Exception).
Arguments Return {A} a.
Arguments Raise {A} e.

Definition returned {A} (o : Outcome A) : Prop := ∃ a, o = Return a.
Definition raised {A} (o : Outcome A) : Prop := ∃ e, o = Raise e.

(** ** Python strings

    A [str] is a sequence of code points; a [string] here is the same
    sequence for code points below 256, each [ascii] standing for the code
    point it numbers. *)
Module Str.

(** [c.isspace()] on code points below 256. *)
Definition isspace (c : ascii) : bool :=
  let n := nat_of_ascii c in
  (((9 <=? n) && (n <=? 13)) || ((28 <=? n) && (n <=? 32))
   || (n =? 133) || (n =? 160))%nat.

(** The upper-case letters below 256: A-Z and the Latin-1 capitals, the
    multiplication sign (215) excepted. *)
Definition isupper (c : ascii) : bool :=
  let n := nat_of_ascii c in
  (((65 <=? n) && (n <=? 90))
   || ((192 <=? n) && (n <=? 222) && negb (n =? 215)))%nat.

Definition lower_char (c : ascii) : ascii :=
  if isupper c then ascii_of_nat (nat_of_ascii c + 32) else c.

(** [s.lower()] *)
Fixpoint lower (s : string) : string :=
  match s with
  | EmptyString => EmptyString
  | String c s' => String (lower_char c) (lower s')
  end.

Fixpoint lstrip (s : string) : string :=
  match s with
  | EmptyString => EmptyString
  | String c s' => if isspace c then lstrip s' else s
  end.

Fixpoint rstrip (s : string) : string :=
  match s with
  | EmptyString => EmptyString
  | String c s' =>
      match rstrip s' with
      | EmptyString => if isspace c then EmptyString else String c EmptyString
      | r => String c r
      end
  end.

(** [s.strip()] *)
Definition strip (s : string) : string := rstrip (lstrip s).

(** [s.rsplit("@", 1)]: the text before and after the last ["@"], or
    [None] when [s] has none (the one-element list, whose unpacking into
    two names raises [ValueError]). *)
Fixpoint rsplit_at (s : string) : option (string * string) :=
  match s with
  | EmptyString => None
  | String c s' =>
      match rsplit_at s' with
      | Some (a, b) => Some (String c a, b)
      | None => if Ascii.eqb c "@" then Some (EmptyString, s') else None
      end
  end.

(** [c in s] *)
Fixpoint contains (c : ascii) (s : string) : bool :=
  match s with
  | EmptyString => false
  | String c' s' => Ascii.eqb c' c || contains c s'
  end.

(** [s[:n]] *)
Definition slice_to (n : nat) (s : string) : string := substring 0 n s.

(** Truthiness of an optional string: [None] and [""] are falsy. *)
Definition truthy (s : option string) : bool :=
  match s with
  | None => false
  | Some EmptyString => false
  | Some (String _ _) => true
  end.

End Str.

(** ** The account subsystem *)

Module User.

(** A [User] object in memory, which is also what a row of the table
    holds: the fields of [AbstractBaseUser] ([password], [last_login]) and
    of [PermissionsMixin] ([is_superuser]), then the fields the class
    declares.  [id] is [None] until the object has a primary key.  The
    attributes of the columns that are not nullable ([is_superuser],
    [name], [is_active], [is_staff]) are optional as well, because a caller
    may set them to [None]; no stored row holds [None] in them. *)
Record t : Type := mk {
  id : option nat;
  password : string;
  last_login : option Z;
  is_superuser : option bool;
  email : string;
  name : option string;
  is_active : option bool;
  is_staff : option bool
}.

Definition set_id (k : nat) (u : t) : t :=
  mk (Some k) (password u) (last_login u) (is_superuser u)
     (email u) (name u) (is_active u) (is_staff u).

Definition set_password_hash (h : string) (u : t) : t :=
  mk (id u) h (last_login u) (is_superuser u)
     (email u) (name u) (is_active u) (is_staff u).

Definition set_is_staff (b : bool) (u : t) : t :=
  mk (id u) (password u) (last_login u) (is_superuser u)
     (email u) (name u) (is_active u) (Some b).

Definition set_is_superuser (b : bool) (u : t) : t :=
  mk (id u) (password u) (last_login u) (Some b)
     (email u) (name u) (is_active u) (is_staff u).

(** [max_length] of the two bounded text columns. *)
Definition email_max_length : nat := 255.
Definition name_max_length : nat := 255.

End User.

(** A keyword argument that names no column of the user table:
    - [unexpected_keyword] names nothing the model has;
    - [relation_keyword] names a relation kept outside the table: [groups]
      or [user_permissions] of [PermissionsMixin], or the reverse side of
      a relation another model declares;
    - [read_only_property] names a property without a setter:
      [is_anonymous] or [is_authenticated] of [AbstractBaseUser]. *)
Inductive Keyword : Type :=
  | unexpected_keyword
  | relation_keyword
  | read_only_property.

(** [**extra_fields] of [create_user], which are passed on to the model's
    constructor as they are.  [email] and [password] are parameters of
    [create_user] itself; for every other column of [User] the keyword is
    either not passed ([None]) or passed with a value of the column's
    type, which may be Python's [None] ([Some None]).  [xf_id] is the
    primary key, passed as [id] or as [pk] ([pk] prevailing if both are),
    a natural number as the keys the database allocates are.  [xf_other]
    lists the other keywords passed, in the order they were passed. *)
Record extra_fields : Type := {
  xf_id : option (option nat);
  xf_last_login : option (option Z);
  xf_is_superuser : option (option bool);
  xf_name : option (option string);
  xf_is_active : option (option bool);
  xf_is_staff : option (option bool);
  xf_other : list Keyword
}.

Definition no_extra_fields : extra_fields :=
  {| xf_id := None; xf_last_login := None; xf_is_superuser := None;
     xf_name := None; xf_is_active := None; xf_is_staff := None;
     xf_other := [] |}.

(** The user table.  [journal] lists the rows written so far, oldest first:
    each successful [save] is a write of its own, committed when it
    returns. *)
Record UserDb : Type := {
  users : gmap nat User.t;
  journal : list User.t
}.

Definition empty_db : UserDb := {| users := ∅; journal := [] |}.

Section UserManager.

(** The credential hasher behind [set_password]; [None] is the missing
    password, stored as an unusable credential.  What it returns fits the
    password column. *)
Variable make_password : option string → string.

(** The key the database allocates to a row inserted without one, the
    table being as it is: the next value of the table's sequence.
    Databases differ in it, and it may be a key in use, when rows were
    inserted under keys the caller chose. *)
Variable next_id : UserDb → nat.

(** Whether the database rejects a text longer than its column's
    [max_length] (some backends do, some store it as it is). *)
Variable enforces_max_length : bool.

(** [BaseUserManager.normalize_email] *)
Definition normalize_email (email : option string) : string :=
  let email := match email with Some e => e | None => "" end in
  match Str.rsplit_at (Str.strip email) with
  | None => email
  | Some (email_name, domain_part) =>
      email_name +:+ "@" +:+ Str.lower domain_part
  end.

(** What [Model.__init__] does with the keywords that name no column.  It
    takes them in order and assigns to the attribute each one names: a
    relation refuses the assignment with [TypeError], a property without
    a setter with [AttributeError] (up to Django 4.0 this was reported as
    the [TypeError] of an unexpected keyword).  The keywords that name
    nothing are collected, and reported by [TypeError] once all keywords
    were looked at. *)
Fixpoint refused_keyword (keywords : list Keyword) (unexpected : bool)
    : option Exception :=
  match keywords with
  | [] => if unexpected then Some TypeError else None
  | unexpected_keyword :: keywords' => refused_keyword keywords' true
  | relation_keyword :: _ => Some TypeError
  | read_only_property :: _ => Some AttributeError
  end.

(** [self.model(email=..., **extra_fields)]: the constructor sets every
    column's attribute to the value passed or else to the field's default,
    and raises if a keyword is left that it cannot assign. *)
Definition model (email : string) (xf : extra_fields) : Outcome User.t :=
  match refused_keyword (xf_other xf) false with
  | Some e => Raise e
  | None =>
      Return
        {| User.id := default None (xf_id xf);
           User.password := "";
           User.last_login := default None (xf_last_login xf);
           User.is_superuser := default (Some false) (xf_is_superuser xf);
           User.email := email;
           User.name := default (Some "") (xf_name xf);
           User.is_active := default (Some true) (xf_is_active xf);
           User.is_staff := default (Some false) (xf_is_staff xf) |}
  end.

(** [user.set_password(password)] *)
Definition set_password (raw : option string) (u : User.t) : User.t :=
  User.set_password_hash (make_password raw) u.

(** [email] is declared [unique=True]: no other row may hold it. *)
Definition email_free (self : option nat) (e : string)
    (tbl : gmap nat User.t) : Prop :=
  map_Forall (λ k row, User.email row = e → self = Some k) tbl.

#[global] Instance email_free_dec self e tbl : Decision (email_free self e tbl).
Proof. unfold email_free. apply _. Defined.

Definition fits_columns (u : User.t) : bool :=
  ((String.length (User.email u) <=? User.email_max_length)
   && (String.length (default "" (User.name u))
       <=? User.name_max_length))%nat.

(** No column declared without [null=True] is given [None]. *)
Definition not_null (u : User.t) : bool :=
  match User.is_superuser u, User.name u, User.is_active u,
        User.is_staff u with
  | Some _, Some _, Some _, Some _ => true
  | _, _, _, _ => false
  end.

(** [user.save(using=self._db)].  An object that has a primary key is
    written to the row of that key, which is updated if it exists and
    inserted if not; an object without one is inserted under the key the
    database allocates, which must not be in use.  The database refuses a
    text that is too long (where it checks), [None] in a column that is
    not nullable, and an email another row holds. *)
Definition save (u : User.t) (db : UserDb) : Outcome User.t * UserDb :=
  if enforces_max_length && negb (fits_columns u) then (Raise DataError, db)
  else if negb (not_null u) then (Raise IntegrityError, db)
  else if decide (email_free (User.id u) (User.email u) (users db)) then
    let k := match User.id u with
             | Some k => k
             | None => next_id db
             end in
    if decide (User.id u = None ∧ k ∈ dom (users db)) then
      (Raise IntegrityError, db)
    else
      let row := User.set_id k u in
      (Return row,
       {| users := <[k := row]> (users db);
          journal := journal db ++ [row] |})
  else (Raise IntegrityError, db).

(** What the database requires of the object for [save] to write it. *)
Definition accepted (u : User.t) (db : UserDb) : Prop :=
  (enforces_max_length = true → fits_columns u = true)
  ∧ not_null u = true
  ∧ email_free (User.id u) (User.email u) (users db)
  ∧ (User.id u = None → next_id db ∉ dom (users db)).

Definition create_user (email password : option string)
    (xf : extra_fields) (db : UserDb) : Outcome User.t * UserDb :=
  if negb (Str.truthy email) then
    (Raise (ValueError "User must have an email address."), db)
  else
    match model (normalize_email email) xf with
    | Raise e => (Raise e, db)
    | Return user =>
        let user := set_password password user in
        save user db
    end.

Definition create_superuser (email password : option string)
    (db : UserDb) : Outcome User.t * UserDb :=
  match create_user email password no_extra_fields db with
  | (Raise e, db1) => (Raise e, db1)
  | (Return user, db1) =>
      let user := User.set_is_staff true user in
      let user := User.set_is_superuser true user in
      save user db1
  end.

End UserManager.

(** ** The common record shape *)

Module BaseModel.

(** The fields every case-records entity inherits, as attributes of an
    object in memory and as columns of its row.  The two timestamps are
    [None] on an object that was never saved; [is_active] is [None] only
    if a caller set it so, and no stored row holds [None] in any of the
    three. *)
Record t : Type := mk {
  is_active : option bool;
  created_at : option Z;
  updated_at : option Z
}.

(** A fresh in-memory object: [is_active] as given, no timestamps yet. *)
Definition new (active : bool) : t := mk (Some active) None None.

End BaseModel.

(** The fields a save can be restricted to with [update_fields]:
    [own_field] stands for any field the entity declares itself. *)
Inductive Field : Type :=
  | is_active_field
  | created_at_field
  | updated_at_field
  | own_field.

#[global] Instance Field_eq_dec : EqDecision Field.
Proof. solve_decision. Defined.

(** A persisted entity: the object a caller holds, the row of the table,
    and the number of readings of the clock taken so far. *)
Record Persisted : Type := {
  object : BaseModel.t;
  stored : BaseModel.t;
  reads : nat
}.

(** The two ways to modify a row: saving the object, or an update of
    columns through the manager ([QuerySet.update]). *)
Inductive Via : Type := instance_save | queryset_update.

(** A modification, made after [wait] readings of the clock by others.
    Through [instance_save] the caller (who fetches the object from its
    row again if [refetch]) assigns some of the three attributes, to a
    value or to [None], and calls [save()], or [save(update_fields=...)].
    Through [queryset_update] the values assigned are written to the
    columns of the row directly, and the object in memory is not
    involved. *)
Record Edit : Type := {
  via : Via;
  wait : nat;
  refetch : bool;
  assign_is_active : option (option bool);
  assign_created_at : option (option Z);
  assign_updated_at : option (option Z);
  update_fields : option (list Field)
}.

(** Whether a save writes a field: all of them unless [update_fields]
    names the ones to write. *)
Definition writes (update_fields : option (list Field)) (f : Field) : bool :=
  match update_fields with
  | None => true
  | Some fields => bool_decide (f ∈ fields)
  end.

Section Timestamps.

(** [clock k] is what the [k]-th call of [timezone.now()] returns. *)
Variable clock : nat → Z.

(** [timezone.now()], on the number of readings taken so far. *)
Definition timezone_now (reads : nat) : Z * nat := (clock reads, S reads).

(** [DateTimeField.pre_save] of a field declared [auto_now_add=True]: the
    clock on insertion, the attribute's current value on update. *)
Definition pre_save_auto_now_add (add : bool) (current : option Z)
    (reads : nat) : option Z * nat :=
  if add then let '(v, r) := timezone_now reads in (Some v, r)
  else (current, reads).

(** [DateTimeField.pre_save] of a field declared [auto_now=True]: the clock
    on every save. *)
Definition pre_save_auto_now (reads : nat) : option Z * nat :=
  let '(v, r) := timezone_now reads in (Some v, r).

(** The values a save of all fields takes from the object, in declaration
    order: [is_active], [created_at], [updated_at].  Each timestamp field
    reads the clock for itself, and sets the attribute to what it read. *)
Definition save_common (add : bool) (x : BaseModel.t) (reads : nat)
    : BaseModel.t * nat :=
  let '(c, r1) := pre_save_auto_now_add add (BaseModel.created_at x) reads in
  let '(u, r2) := pre_save_auto_now r1 in
  (BaseModel.mk (BaseModel.is_active x) c u, r2).

(** Creation: the first save of a fresh object. *)
Definition create_common (active : bool) (reads : nat) : BaseModel.t * nat :=
  save_common true (BaseModel.new active) reads.

(** The first save of any object: the row is inserted unless [is_active]
    is [None]; timestamps the caller had set are overwritten. *)
Definition first_save (x : BaseModel.t) (reads : nat) : Outcome Persisted :=
  let '(y, r) := save_common true x reads in
  match BaseModel.is_active y with
  | None => Raise IntegrityError
  | Some _ => Return {| object := y; stored := y; reads := r |}
  end.

(** Saving the object of a persisted entity.  Only the fields the save
    writes have their [pre_save] run, so [updated_at] is refreshed only
    when it is written; [created_at] is written as the object carries it.
    The update is refused, and the row left as it was, when a written
    column would hold [None]. *)
Definition save_object (e : Edit) (st : Persisted) : Outcome unit * Persisted :=
  let x0 := if refetch e then stored st else object st in
  let x1 := BaseModel.mk
              (default (BaseModel.is_active x0) (assign_is_active e))
              (default (BaseModel.created_at x0) (assign_created_at e))
              (default (BaseModel.updated_at x0) (assign_updated_at e)) in
  let r0 := reads st + wait e in
  let fields := update_fields e in
  let '(c, r1) :=
    if writes fields created_at_field
    then pre_save_auto_now_add false (BaseModel.created_at x1) r0
    else (BaseModel.created_at x1, r0) in
  let '(u, r2) :=
    if writes fields updated_at_field then pre_save_auto_now r1
    else (BaseModel.updated_at x1, r1) in
  let x2 := BaseModel.mk (BaseModel.is_active x1) c u in
  if (writes fields is_active_field
      && bool_decide (BaseModel.is_active x2 = None))
     || (writes fields created_at_field && bool_decide (c = None))
  then (Raise IntegrityError,
        {| object := x2; stored := stored st; reads := r2 |})
  else
    (Return tt,
     {| object := x2;
        stored :=
          BaseModel.mk
            (if writes fields is_active_field then BaseModel.is_active x2
             else BaseModel.is_active (stored st))
            (if writes fields created_at_field then c
             else BaseModel.created_at (stored st))
            (if writes fields updated_at_field then u
             else BaseModel.updated_at (stored st));
        reads := r2 |}).

(** An update of columns through the manager: the values given are
    written as they are, no [pre_save] runs and the clock is not read.
    It is refused when a column would hold [None]. *)
Definition update_columns (e : Edit) (st : Persisted)
    : Outcome unit * Persisted :=
  let y := BaseModel.mk
             (default (BaseModel.is_active (stored st)) (assign_is_active e))
             (default (BaseModel.created_at (stored st))
                (assign_created_at e))
             (default (BaseModel.updated_at (stored st))
                (assign_updated_at e)) in
  let r := reads st + wait e in
  if bool_decide (BaseModel.is_active y = None)
     || bool_decide (BaseModel.created_at y = None)
     || bool_decide (BaseModel.updated_at y = None)
  then (Raise IntegrityError,
        {| object := object st; stored := stored st; reads := r |})
  else (Return tt, {| object := object st; stored := y; reads := r |}).

Definition modify (e : Edit) (st : Persisted) : Outcome unit * Persisted :=
  match via e with
  | instance_save => save_object e st
  | queryset_update => update_columns e st
  end.

(** The entity after a series of modifications, and the row it had after
    each of them. *)
Fixpoint run (edits : list Edit) (st : Persisted) : Persisted :=
  match edits with
  | [] => st
  | e :: edits' => run edits' (snd (modify e st))
  end.

Fixpoint history (edits : list Edit) (st : Persisted) : list BaseModel.t :=
  match edits with
  | [] => []
  | e :: edits' =>
      let st' := snd (modify e st) in stored st' :: history edits' st'
  end.

End Timestamps.

(** A clock that never runs backwards. *)
Definition nondecreasing (clock : nat → Z) : Prop :=
  ∀ i j : nat, (i ≤ j)%nat → (clock i ≤ clock j)%Z.

(** [updated_at] of [x] is not after [updated_at] of [y]. *)
Definition updated_le (x y : BaseModel.t) : Prop :=
  ∃ u v, BaseModel.updated_at x = Some u ∧ BaseModel.updated_at y = Some v
         ∧ (u ≤ v)%Z.

(** [created_at] of [x] is not after its [updated_at]. *)
Definition created_le_updated (x : BaseModel.t) : Prop :=
  ∃ c u, BaseModel.created_at x = Some c ∧ BaseModel.updated_at x = Some u
         ∧ (c ≤ u)%Z.

(** No modification of the series assigns [created_at]. *)
Definition created_at_left_alone (edits : list Edit) : Prop :=
  Forall (λ e, assign_created_at e = None) edits.

(** No modification of the series writes [updated_at] through the
    manager. *)
Definition updated_at_left_to_save (edits : list Edit) : Prop :=
  Forall (λ e, via e = queryset_update → assign_updated_at e = None) edits.

(** A plain [save()] after assigning [is_active] only. *)
Definition plain_edit (wait : nat) (active : bool) : Edit :=
  {| via := instance_save;
     wait := wait; refetch := false; assign_is_active := Some (Some active);
     assign_created_at := None; assign_updated_at := None;
     update_fields := None |}.

(** ** The case-records entities

    One record per model class, a foreign key holding the primary key of
    the row it points to: [nat] for a required reference, [option nat] for
    one declared [null=True].  A row's own primary key is its key in the
    table. *)

(** The [on_delete] policies the declarations use. *)
Inductive OnDelete : Type := CASCADE | SET_NULL.

Module Victim.
Record t : Type := mk {
  base : BaseModel.t;
  name : string;
  age : nat;
  description : option string;
  time_of_death : option Z;
  cause_of_death : option string
}.
End Victim.

Module Case.
Record t : Type := mk {
  base : BaseModel.t;
  title : string;
  description : option string;
  victim : option nat
}.
Definition victim_on_delete : OnDelete := CASCADE.
Definition clear_victim (x : t) : t := mk (base x) (title x) (description x) None.
End Case.

Module Location.
Record t : Type := mk {
  base : BaseModel.t;
  case : nat;
  name : string;
  description : option string;
  is_crime_scene : bool
}.
Definition case_on_delete : OnDelete := CASCADE.
End Location.

Module Suspect.
Record t : Type := mk {
  base : BaseModel.t;
  case : nat;
  name : string;
  age : nat;
  relation_to_victim : option string;
  description : option string;
  alibi : option string;
  clothing_description : option string
}.
Definition case_on_delete : OnDelete := CASCADE.
End Suspect.

Module Motive.
Record t : Type := mk {
  base : BaseModel.t;
  suspect : nat;
  motive_description : option string
}.
Definition suspect_on_delete : OnDelete := CASCADE.
End Motive.

Module Testimony.
Record t : Type := mk {
  base : BaseModel.t;
  suspect : nat;
  given_at : Z;
  testimony : option string
}.
Definition suspect_on_delete : OnDelete := CASCADE.
End Testimony.

Module Clue.
Record t : Type := mk {
  base : BaseModel.t;
  case : nat;
  location : nat;
  description : option string;
  found_at : Z;
  related_suspect : option nat
}.
Definition case_on_delete : OnDelete := CASCADE.
Definition location_on_delete : OnDelete := CASCADE.
Definition related_suspect_on_delete : OnDelete := SET_NULL.
Definition clear_related_suspect (x : t) : t :=
  mk (base x) (case x) (location x) (description x) (found_at x) None.
End Clue.

Module Evidence.
Record t : Type := mk {
  base : BaseModel.t;
  case : nat;
  description : string;
  obtained_from : option nat;
  date_obtained : Z;
  related_suspect : option nat
}.
Definition case_on_delete : OnDelete := CASCADE.
Definition obtained_from_on_delete : OnDelete := SET_NULL.
Definition related_suspect_on_delete : OnDelete := SET_NULL.
Definition clear_obtained_from (x : t) : t :=
  mk (base x) (case x) (description x) None (date_obtained x)
     (related_suspect x).
Definition clear_related_suspect (x : t) : t :=
  mk (base x) (case x) (description x) (obtained_from x) (date_obtained x)
     None.
End Evidence.

Module Message.
Record t : Type := mk {
  base : BaseModel.t;
  case : nat;
  sender : option string;
  receiver : option string;
  timestamp : Z;
  content : string;
  related_suspect : option nat
}.
Definition case_on_delete : OnDelete := CASCADE.
Definition related_suspect_on_delete : OnDelete := SET_NULL.
Definition clear_related_suspect (x : t) : t :=
  mk (base x) (case x) (sender x) (receiver x) (timestamp x) (content x) None.
End Message.

Module CallRecord.
Record t : Type := mk {
  base : BaseModel.t;
  case : nat;
  caller : option string;
  callee : option string;
  timestamp : Z;
  duration : option nat;
  related_suspect : option nat
}.
Definition case_on_delete : OnDelete := CASCADE.
Definition related_suspect_on_delete : OnDelete := SET_NULL.
Definition clear_related_suspect (x : t) : t :=
  mk (base x) (case x) (caller x) (callee x) (timestamp x) (duration x) None.
End CallRecord.

(** The database: one table per entity. *)
Record Db : Type := {
  victims : gmap nat Victim.t;
  cases : gmap nat Case.t;
  locations : gmap nat Location.t;
  suspects : gmap nat Suspect.t;
  motives : gmap nat Motive.t;
  testimonies : gmap nat Testimony.t;
  clues : gmap nat Clue.t;
  evidences : gmap nat Evidence.t;
  messages : gmap nat Message.t;
  calls : gmap nat CallRecord.t
}.

(** ** Deletion

    Deleting rows first collects everything that goes with them, following
    the foreign keys declared [CASCADE] from the referenced row to the rows
    that reference it, then clears the [SET_NULL] keys that point to a
    collected row and removes the collected rows. *)

(** The foreign key [fk] of row [r] points to one of the rows [gone]. *)
Definition points_into {R : Type} (fk : R → option nat) (gone : gset nat)
    (r : R) : Prop :=
  match fk r with
  | Some k => k ∈ gone
  | None => False
  end.

#[global] Instance points_into_dec {R : Type} (fk : R → option nat) gone r :
  Decision (points_into fk gone r).
Proof. unfold points_into. destruct (fk r); apply _. Defined.

(** The keys of the rows of [tbl] whose [fk] points into [gone]. *)
Definition referrers {R : Type} (fk : R → option nat) (gone : gset nat)
    (tbl : gmap nat R) : gset nat :=
  dom (filter (λ kr, points_into fk gone kr.2) tbl).

(** The rows a foreign key drags along, by its policy. *)
Definition cascade_of {R : Type} (policy : OnDelete) (fk : R → option nat)
    (gone : gset nat) (tbl : gmap nat R) : gset nat :=
  match policy with
  | CASCADE => referrers fk gone tbl
  | SET_NULL => ∅
  end.

(** The table after the update a foreign key's policy schedules: under
    [SET_NULL] the key is cleared in every row where it points into [gone],
    and no other column is written. *)
Definition nulled_by {R : Type} (policy : OnDelete) (fk : R → option nat)
    (clear : R → R) (gone : gset nat) (tbl : gmap nat R) : gmap nat R :=
  match policy with
  | CASCADE => tbl
  | SET_NULL => (λ r, if decide (points_into fk gone r) then clear r else r) <$> tbl
  end.

Definition remove {R : Type} (gone : gset nat) (tbl : gmap nat R)
    : gmap nat R :=
  filter (λ kr, kr.1 ∉ gone) tbl.

(** The primary keys collected for deletion, per table. *)
Record Collector : Type := {
  del_victims : gset nat;
  del_cases : gset nat;
  del_locations : gset nat;
  del_suspects : gset nat;
  del_motives : gset nat;
  del_testimonies : gset nat;
  del_clues : gset nat;
  del_evidences : gset nat;
  del_messages : gset nat;
  del_calls : gset nat
}.

(** Collection from the given victims, cases, locations and suspects (the
    entities something refers to).  Every foreign key points from a class
    declared later to one declared earlier, so one pass in declaration
    order reaches everything. *)
Definition collect (db : Db) (vs cs ls ss : gset nat) : Collector :=
  let cs' := cs ∪ cascade_of Case.victim_on_delete Case.victim vs (cases db) in
  let ls' := ls ∪ cascade_of Location.case_on_delete
                     (Some ∘ Location.case) cs' (locations db) in
  let ss' := ss ∪ cascade_of Suspect.case_on_delete
                     (Some ∘ Suspect.case) cs' (suspects db) in
  {| del_victims := vs;
     del_cases := cs';
     del_locations := ls';
     del_suspects := ss';
     del_motives :=
       cascade_of Motive.suspect_on_delete (Some ∘ Motive.suspect) ss'
         (motives db);
     del_testimonies :=
       cascade_of Testimony.suspect_on_delete (Some ∘ Testimony.suspect) ss'
         (testimonies db);
     del_clues :=
       cascade_of Clue.case_on_delete (Some ∘ Clue.case) cs' (clues db)
       ∪ cascade_of Clue.location_on_delete (Some ∘ Clue.location) ls'
           (clues db)
       ∪ cascade_of Clue.related_suspect_on_delete Clue.related_suspect ss'
           (clues db);
     del_evidences :=
       cascade_of Evidence.case_on_delete (Some ∘ Evidence.case) cs'
         (evidences db)
       ∪ cascade_of Evidence.obtained_from_on_delete Evidence.obtained_from
           ls' (evidences db)
       ∪ cascade_of Evidence.related_suspect_on_delete
           Evidence.related_suspect ss' (evidences db);
     del_messages :=
       cascade_of Message.case_on_delete (Some ∘ Message.case) cs'
         (messages db)
       ∪ cascade_of Message.related_suspect_on_delete
           Message.related_suspect ss' (messages db);
     del_calls :=
       cascade_of CallRecord.case_on_delete (Some ∘ CallRecord.case) cs'
         (calls db)
       ∪ cascade_of CallRecord.related_suspect_on_delete
           CallRecord.related_suspect ss' (calls db) |}.

(** The scheduled updates, then the removals. *)
Definition execute (c : Collector) (db : Db) : Db :=
  {| victims := remove (del_victims c) (victims db);
     cases :=
       remove (del_cases c)
         (nulled_by Case.victim_on_delete Case.victim Case.clear_victim
            (del_victims c) (cases db));
     locations := remove (del_locations c) (locations db);
     suspects := remove (del_suspects c) (suspects db);
     motives := remove (del_motives c) (motives db);
     testimonies := remove (del_testimonies c) (testimonies db);
     clues :=
       remove (del_clues c)
         (nulled_by Clue.related_suspect_on_delete Clue.related_suspect
            Clue.clear_related_suspect (del_suspects c) (clues db));
     evidences :=
       remove (del_evidences c)
         (nulled_by Evidence.related_suspect_on_delete
            Evidence.related_suspect Evidence.clear_related_suspect
            (del_suspects c)
            (nulled_by Evidence.obtained_from_on_delete
               Evidence.obtained_from Evidence.clear_obtained_from
               (del_locations c) (evidences db)));
     messages :=
       remove (del_messages c)
         (nulled_by Message.related_suspect_on_delete
            Message.related_suspect Message.clear_related_suspect
            (del_suspects c) (messages db));
     calls :=
       remove (del_calls c)
         (nulled_by CallRecord.related_suspect_on_delete
            CallRecord.related_suspect CallRecord.clear_related_suspect
            (del_suspects c) (calls db)) |}.

(** [instance.delete()] for the four referenced classes. *)
Definition delete_victim (pk : nat) (db : Db) : Db :=
  execute (collect db {[pk]} ∅ ∅ ∅) db.

Definition delete_case (pk : nat) (db : Db) : Db :=
  execute (collect db ∅ {[pk]} ∅ ∅) db.

Definition delete_location (pk : nat) (db : Db) : Db :=
  execute (collect db ∅ ∅ {[pk]} ∅) db.

Definition delete_suspect (pk : nat) (db : Db) : Db :=
  execute (collect db ∅ ∅ ∅ {[pk]}) db.

(** ** Ownership by cascade *)

(** A reference to a row: its class and primary key. *)
Inductive Ref : Type :=
  | a_victim (pk : nat)
  | a_case (pk : nat)
  | a_location (pk : nat)
  | a_suspect (pk : nat)
  | a_motive (pk : nat)
  | a_testimony (pk : nat)
  | a_clue (pk : nat)
  | an_evidence (pk : nat)
  | a_message (pk : nat)
  | a_call (pk : nat).

Definition present (db : Db) (r : Ref) : Prop :=
  match r with
  | a_victim k => is_Some (victims db !! k)
  | a_case k => is_Some (cases db !! k)
  | a_location k => is_Some (locations db !! k)
  | a_suspect k => is_Some (suspects db !! k)
  | a_motive k => is_Some (motives db !! k)
  | a_testimony k => is_Some (testimonies db !! k)
  | a_clue k => is_Some (clues db !! k)
  | an_evidence k => is_Some (evidences db !! k)
  | a_message k => is_Some (messages db !! k)
  | a_call k => is_Some (calls db !! k)
  end.

(** [cascades db parent child]: the row [child] of [db] holds a foreign key
    declared [on_delete=CASCADE] that points to [parent].  One constructor
    per such declaration. *)
Inductive cascades (db : Db) : Ref → Ref → Prop :=
  | Case_victim k x v :
      cases db !! k = Some x → Case.victim x = Some v →
      cascades db (a_victim v) (a_case k)
  | Location_case k x :
      locations db !! k = Some x →
      cascades db (a_case (Location.case x)) (a_location k)
  | Suspect_case k x :
      suspects db !! k = Some x →
      cascades db (a_case (Suspect.case x)) (a_suspect k)
  | Motive_suspect k x :
      motives db !! k = Some x →
      cascades db (a_suspect (Motive.suspect x)) (a_motive k)
  | Testimony_suspect k x :
      testimonies db !! k = Some x →
      cascades db (a_suspect (Testimony.suspect x)) (a_testimony k)
  | Clue_case k x :
      clues db !! k = Some x →
      cascades db (a_case (Clue.case x)) (a_clue k)
  | Clue_location k x :
      clues db !! k = Some x →
      cascades db (a_location (Clue.location x)) (a_clue k)
  | Evidence_case k x :
      evidences db !! k = Some x →
      cascades db (a_case (Evidence.case x)) (an_evidence k)
  | Message_case k x :
      messages db !! k = Some x →
      cascades db (a_case (Message.case x)) (a_message k)
  | CallRecord_case k x :
      calls db !! k = Some x →
      cascades db (a_case (CallRecord.case x)) (a_call k).

(** The rows transitively cascade-owned by [root], [root] included. *)
Inductive owned (db : Db) (root : Ref) : Ref → Prop :=
  | owned_root : owned db root root
  | owned_step parent child :
      owned db root parent → cascades db parent child →
      owned db root child.

(** The row [r] is among those a collector gathered. *)
Definition collected (c : Collector) (r : Ref) : Prop :=
  match r with
  | a_victim k => k ∈ del_victims c
  | a_case k => k ∈ del_cases c
  | a_location k => k ∈ del_locations c
  | a_suspect k => k ∈ del_suspects c
  | a_motive k => k ∈ del_motives c
  | a_testimony k => k ∈ del_testimonies c
  | a_clue k => k ∈ del_clues c
  | an_evidence k => k ∈ del_evidences c
  | a_message k => k ∈ del_messages c
  | a_call k => k ∈ del_calls c
  end.

(** ** Textual rendering *)

(** [Motive.__str__]: the f-string reads [self.suspect.name], then slices
    [self.motive_description]; slicing [None] raises [TypeError]. *)
Definition Motive_str (db : Db) (self : Motive.t) : Outcome string :=
  match suspects db !! Motive.suspect self with
  | None => Raise DoesNotExist
  | Some suspect =>
      match Motive.motive_description self with
      | None => Raise TypeError
      | Some d =>
          Return ("Motive for " +:+ Suspect.name suspect +:+ ": "
                  +:+ Str.slice_to 50 d)
      end
  end.

(** [f"{x}"] for an optional text: [None] is formatted as the word
    ["None"]. *)
Definition format_optional (x : option string) : string := default "None" x.

(** [Victim.__str__] and [Case.__str__] read a field of the row itself. *)
Definition Victim_str (self : Victim.t) : string := Victim.name self.

Definition Case_str (self : Case.t) : string := Case.title self.

(** [Location.__str__] and [Suspect.__str__] read [self.case.title], a
    look-up of the referenced Case. *)
Definition Location_str (db : Db) (self : Location.t) : Outcome string :=
  match cases db !! Location.case self with
  | None => Raise DoesNotExist
  | Some case =>
      Return (Location.name self +:+ " (Case: " +:+ Case.title case +:+ ")")
  end.

Definition Suspect_str (db : Db) (self : Suspect.t) : Outcome string :=
  match cases db !! Suspect.case self with
  | None => Raise DoesNotExist
  | Some case =>
      Return (Suspect.name self +:+ " (Case: " +:+ Case.title case +:+ ")")
  end.

(** [Clue.__str__]: [self.case.title], then [self.location.name]. *)
Definition Clue_str (db : Db) (self : Clue.t) : Outcome string :=
  match cases db !! Clue.case self with
  | None => Raise DoesNotExist
  | Some case =>
      match locations db !! Clue.location self with
      | None => Raise DoesNotExist
      | Some location =>
          Return ("[" +:+ Case.title case +:+ "] Clue at "
                  +:+ Location.name location)
      end
  end.

(** [Evidence.__str__] *)
Definition Evidence_str (db : Db) (self : Evidence.t) : Outcome string :=
  match cases db !! Evidence.case self with
  | None => Raise DoesNotExist
  | Some case => Return ("Evidence (Case: " +:+ Case.title case +:+ ")")
  end.

(** [Message.__str__]: the optional [sender] and [receiver] are formatted
    as they are, then [self.case.title] is read. *)
Definition Message_str (db : Db) (self : Message.t) : Outcome string :=
  match cases db !! Message.case self with
  | None => Raise DoesNotExist
  | Some case =>
      Return ("Message from " +:+ format_optional (Message.sender self)
              +:+ " to " +:+ format_optional (Message.receiver self)
              +:+ " (Case: " +:+ Case.title case +:+ ")")
  end.

Section Datetimes.

(** [str] of a [datetime]. *)
Variable format_datetime : Z → string.

(** [Testimony.__str__] *)
Definition Testimony_str (db : Db) (self : Testimony.t) : Outcome string :=
  match suspects db !! Testimony.suspect self with
  | None => Raise DoesNotExist
  | Some suspect =>
      Return ("Testimony of " +:+ Suspect.name suspect +:+ " at "
              +:+ format_datetime (Testimony.given_at self))
  end.

(** [CallRecord.__str__] reads no other row. *)
Definition CallRecord_str (self : CallRecord.t) : string :=
  "Call " +:+ format_optional (CallRecord.caller self) +:+ " -> "
  +:+ format_optional (CallRecord.callee self) +:+ " at "
  +:+ format_datetime (CallRecord.timestamp self).

End Datetimes.

(** ** Referential integrity

    What the foreign-key constraints of the tables guarantee: every
    reference a row holds points to a row of the referenced table. *)

Definition refers_within {R T : Type} (fk : R → option nat)
    (tbl : gmap nat R) (target : gmap nat T) : Prop :=
  map_Forall (λ _ r, match fk r with
                     | Some k => is_Some (target !! k)
                     | None => True
                     end) tbl.

#[global] Instance refers_within_dec {R T : Type} (fk : R → option nat)
    (tbl : gmap nat R) (target : gmap nat T) :
  Decision (refers_within fk tbl target).
Proof.
  unfold refers_within. apply map_Forall_dec. intros _ r.
  destruct (fk r); apply _.
Defined.

Definition well_referenced (db : Db) : Prop :=
  refers_within Case.victim (cases db) (victims db)
  ∧ refers_within (Some ∘ Location.case) (locations db) (cases db)
  ∧ refers_within (Some ∘ Suspect.case) (suspects db) (cases db)
  ∧ refers_within (Some ∘ Motive.suspect) (motives db) (suspects db)
  ∧ refers_within (Some ∘ Testimony.suspect) (testimonies db) (suspects db)
  ∧ refers_within (Some ∘ Clue.case) (clues db) (cases db)
  ∧ refers_within (Some ∘ Clue.location) (clues db) (locations db)
  ∧ refers_within Clue.related_suspect (clues db) (suspects db)
  ∧ refers_within (Some ∘ Evidence.case) (evidences db) (cases db)
  ∧ refers_within Evidence.obtained_from (evidences db) (locations db)
  ∧ refers_within Evidence.related_suspect (evidences db) (suspects db)
  ∧ refers_within (Some ∘ Message.case) (messages db) (cases db)
  ∧ refers_within Message.related_suspect (messages db) (suspects db)
  ∧ refers_within (Some ∘ CallRecord.case) (calls db) (cases db)
  ∧ refers_within CallRecord.related_suspect (calls db) (suspects db).

(** The rows a deletion starts from. *)
Definition is_root (vs cs ls ss : gset nat) (r : Ref) : Prop :=
  match r with
  | a_victim k => k ∈ vs
  | a_case k => k ∈ cs
  | a_location k => k ∈ ls
  | a_suspect k => k ∈ ss
  | _ => False
  end.

(** ** The user table's invariants *)

(** No two accounts hold the same email, and every row carries its key. *)
Definition unique_emails (tbl : gmap nat User.t) : Prop :=
  ∀ k1 k2 r1 r2,
    tbl !! k1 = Some r1 → tbl !! k2 = Some r2 →
    User.email r1 = User.email r2 → k1 = k2.

Definition ids_match_keys (tbl : gmap nat User.t) : Prop :=
  ∀ k r, tbl !! k = Some r → User.id r = Some k.

(** A clock on which every reading is later than the one before. *)
Definition increasing (clock : nat → Z) : Prop :=
  ∀ i j : nat, (i < j)%nat → (clock i < clock j)%Z.

(** [updated_at] of [x] is before [updated_at] of [y]. *)
Definition updated_lt (x y : BaseModel.t) : Prop :=
  ∃ u v, BaseModel.updated_at x = Some u ∧ BaseModel.updated_at y = Some v
         ∧ (u < v)%Z.

(** A string that is empty or begins with a character that is not white
    space. *)
Definition starts_clean (s : string) : Prop :=
  match s with
  | EmptyString => True
  | String c _ => Str.isspace c = false
  end.

(** The suspect [s], or the location [l], is a row of the case [pk]. *)
Definition suspect_of_case (db : Db) (pk s : nat) : Prop :=
  ∃ x, suspects db !! s = Some x ∧ Suspect.case x = pk.

Definition location_of_case (db : Db) (pk l : nat) : Prop :=
  ∃ x, locations db !! l = Some x ∧ Location.case x = pk.

(** ** A small database

    One case with a location, a suspect, two motives, a testimony, a clue,
    an evidence, a message and a call record, all pointing at one another
    where the schema allows it. *)

(** A stand-in for the credential hasher. *)
Definition sample_hasher (raw : option string) : string :=
  match raw with
  | Some p => "hashed$" +:+ p
  | None => "!unusable"
  end.

(** A sequence that allocates the key after the largest one in use, 1 in
    an empty table. *)
Definition sample_next_id (db : UserDb) : nat :=
  S (set_fold Nat.max 0 (dom (users db))).

(** The user table after one account was created in an empty one. *)
Definition one_user_db : UserDb :=
  snd (create_user sample_hasher sample_next_id false
         (Some "Jane@EXAMPLE.com") (Some "secret") no_extra_fields
         empty_db).

(** The account it holds, under key 1. *)
Definition jane : User.t :=
  User.mk (Some 1) "hashed$secret" None (Some false) "Jane@example.com"
    (Some "") (Some true) (Some false).

Definition sample_base : BaseModel.t :=
  BaseModel.mk (Some true) (Some 5%Z) (Some 7%Z).

Definition sample_clue : Clue.t :=
  Clue.mk sample_base 0 0 (Some "Broken vase") 3%Z (Some 0).

Definition sample_evidence : Evidence.t :=
  Evidence.mk sample_base 0 "Autopsy report" (Some 0) 4%Z (Some 0).

Definition sample_message : Message.t :=
  Message.mk sample_base 0 (Some "Ada") None 9%Z "Meet me at nine" (Some 0).

Definition sample_call : CallRecord.t :=
  CallRecord.mk sample_base 0 None (Some "Ada") 10%Z (Some 60) (Some 0).

Definition motive_without_description : Motive.t :=
  Motive.mk sample_base 0 None.

Definition motive_with_description : Motive.t :=
  Motive.mk sample_base 0
    (Some "Stood to inherit the manor and every last thing that was in it").

Definition sample_db : Db :=
  {| victims := {[ 0 := Victim.mk sample_base "Edgar" 61 None None None ]};
     cases := {[ 0 := Case.mk sample_base "The manor" None (Some 0) ]};
     locations := {[ 0 := Location.mk sample_base 0 "Cellar" None true ]};
     suspects :=
       {[ 0 := Suspect.mk sample_base 0 "Ada" 40 None None None None ]};
     motives := {[ 0 := motive_without_description ]}
                ∪ {[ 1 := motive_with_description ]};
     testimonies := {[ 0 := Testimony.mk sample_base 0 8%Z None ]};
     clues := {[ 0 := sample_clue ]};
     evidences := {[ 0 := sample_evidence ]};
     messages := {[ 0 := sample_message ]};
     calls := {[ 0 := sample_call ]} |}.

(** Two cases whose rows also point across: a clue and a message of the
    second case name a suspect of the first, another clue of the second
    case was found at a location of the first, and an evidence of the
    second case was obtained there. *)
Definition second_db : Db :=
  {| victims :=
       <[1 := Victim.mk sample_base "Maud" 47 None None None]>
         {[ 0 := Victim.mk sample_base "Edgar" 61 None None None ]};
     cases :=
       <[1 := Case.mk sample_base "The harbour" None (Some 1)]>
         {[ 0 := Case.mk sample_base "The manor" None (Some 0) ]};
     locations :=
       <[1 := Location.mk sample_base 1 "Quay" None true]>
         {[ 0 := Location.mk sample_base 0 "Cellar" None true ]};
     suspects :=
       <[1 := Suspect.mk sample_base 1 "Bram" 35 None None None None]>
         {[ 0 := Suspect.mk sample_base 0 "Ada" 40 None None None None ]};
     motives :=
       <[1 := Motive.mk sample_base 1 (Some "Debt")]>
         {[ 0 := motive_without_description ]};
     testimonies := {[ 0 := Testimony.mk sample_base 1 8%Z None ]};
     clues :=
       <[2 := Clue.mk sample_base 1 0 None 6%Z None]>
         (<[1 := Clue.mk sample_base 1 1 (Some "Rope") 5%Z (Some 0)]>
            {[ 0 := sample_clue ]});
     evidences :=
       {[ 0 := Evidence.mk sample_base 1 "Ledger" (Some 0) 4%Z (Some 1) ]};
     messages :=
       {[ 0 := Message.mk sample_base 1 None (Some "Bram") 9%Z "Tonight"
                 (Some 0) ]};
     calls :=
       {[ 0 := CallRecord.mk sample_base 1 (Some "Bram") None 10%Z None
                 (Some 1) ]} |}.

(** A stand-in for the text of a [datetime]. *)
Definition sample_format_datetime (t : Z) : string :=
  if (t <? 9)%Z then "2024-03-01 08:00:00+00:00"
  else "2024-03-01 09:00:00+00:00".

(** * Properties *)

(** ** Tables under deletion *)

Section TableLemmas.

Context {R : Type}.
Implicit Types (fk : R → option nat) (gone : gset nat) (tbl : gmap nat R).

Lemma elem_of_referrers fk gone tbl k :
  k ∈ referrers fk gone tbl ↔ ∃ r, tbl !! k = Some r ∧ points_into fk gone r.
Proof.
  unfold referrers. rewrite elem_of_dom. split.
  - intros [r Hr]. apply map_lookup_filter_Some in Hr as [Hk Hp]. eauto.
  - intros (r & Hk & Hp). exists r. by apply map_lookup_filter_Some.
Qed.

Lemma points_into_empty fk r : ¬ points_into fk ∅ r.
Proof. unfold points_into. destruct (fk r); set_solver. Qed.

Lemma referrers_empty fk tbl : referrers fk ∅ tbl = ∅.
Proof.
  apply set_eq. intros k. rewrite elem_of_referrers. split; [|set_solver].
  intros (r & _ & Hp). by apply points_into_empty in Hp.
Qed.

Lemma cascade_of_empty policy fk tbl : cascade_of policy fk ∅ tbl = ∅.
Proof. destruct policy; simpl; [apply referrers_empty | done]. Qed.

Lemma lookup_remove_in gone tbl k : k ∈ gone → remove gone tbl !! k = None.
Proof.
  intros Hk. unfold remove. apply map_lookup_filter_None. right.
  intros r _ Hn. by apply Hn.
Qed.

Lemma lookup_remove_out gone tbl k :
  k ∉ gone → remove gone tbl !! k = tbl !! k.
Proof.
  intros Hk. unfold remove. destruct (tbl !! k) as [r|] eqn:Hr.
  - by apply map_lookup_filter_Some.
  - apply map_lookup_filter_None. by left.
Qed.

Lemma lookup_remove_empty tbl k : remove ∅ tbl !! k = tbl !! k.
Proof. apply lookup_remove_out. set_solver. Qed.

Lemma lookup_set_null_hit fk clear gone tbl k r :
  tbl !! k = Some r → points_into fk gone r →
  nulled_by SET_NULL fk clear gone tbl !! k = Some (clear r).
Proof.
  intros Hk Hp. simpl. rewrite lookup_fmap, Hk. simpl.
  by rewrite decide_True.
Qed.

Lemma lookup_set_null_miss fk clear gone tbl k r :
  tbl !! k = Some r → ¬ points_into fk gone r →
  nulled_by SET_NULL fk clear gone tbl !! k = Some r.
Proof.
  intros Hk Hp. simpl. rewrite lookup_fmap, Hk. simpl.
  by rewrite decide_False.
Qed.

Lemma nulled_by_empty policy fk clear tbl :
  nulled_by policy fk clear ∅ tbl = tbl.
Proof.
  destruct policy; simpl; [done|]. apply map_eq. intros k.
  rewrite lookup_fmap. destruct (tbl !! k) as [r|]; simpl; [|done].
  rewrite decide_False; [done | apply points_into_empty].
Qed.

Lemma nulled_by_dom policy fk clear gone tbl k :
  is_Some (nulled_by policy fk clear gone tbl !! k) ↔ is_Some (tbl !! k).
Proof.
  destruct policy; simpl; [done|]. rewrite lookup_fmap.
  by rewrite fmap_is_Some.
Qed.

End TableLemmas.

Lemma points_into_singleton {R : Type} (fk : R → option nat) (pk : nat)
    (more : gset nat) (r : R) :
  fk r = Some pk → points_into fk ({[pk]} ∪ more) r.
Proof. intros H. unfold points_into. rewrite H. set_solver. Qed.


(** The rows a collector gathered are gone once it has run. *)
Lemma execute_removes c db r : collected c r → ¬ present (execute c db) r.
Proof.
  destruct r; simpl; intros Hin [x Hx];
    by rewrite lookup_remove_in in Hx.
Qed.

(** Collection is closed under the cascade edges. *)
Lemma collect_closed db vs cs ls ss parent child :
  collected (collect db vs cs ls ss) parent →
  cascades db parent child →
  collected (collect db vs cs ls ss) child.
Proof.
  intros Hp Hc. destruct Hc; simpl in *;
    repeat (rewrite elem_of_union); rewrite ?elem_of_referrers;
    unfold points_into; simpl.
  - right. exists x. by rewrite H0.
  - right. eauto.
  - right. eauto.
  - eauto.
  - eauto.
  - left. left. eauto.
  - left. right. eauto.
  - left. left. eauto.
  - left. eauto.
  - left. eauto.
Qed.

Lemma owned_collected db vs cs ls ss root r :
  collected (collect db vs cs ls ss) root →
  owned db root r →
  collected (collect db vs cs ls ss) r.
Proof.
  intros Hroot Ho. induction Ho as [|parent child _ IH Hc]; [done|].
  by eapply collect_closed.
Qed.

(** Reading a table of a database, or a set of a collector, given by its
    fields. *)
Ltac project :=
  cbn [victims cases locations suspects motives testimonies clues evidences
       messages calls del_victims del_cases del_locations del_suspects
       del_motives del_testimonies del_clues del_evidences del_messages
       del_calls].

(** Nothing cascades from an empty set of rows. *)
Ltac tidy_collector :=
  repeat (progress
    (rewrite ?cascade_of_empty, ?(left_id_L ∅ (∪)), ?(right_id_L ∅ (∪)))).

(** What is collected when one suspect, or one location, is deleted. *)
Lemma collect_suspect db pk :
  collect db ∅ ∅ ∅ {[pk]} =
  {| del_victims := ∅; del_cases := ∅; del_locations := ∅;
     del_suspects := {[pk]};
     del_motives := referrers (Some ∘ Motive.suspect) {[pk]} (motives db);
     del_testimonies :=
       referrers (Some ∘ Testimony.suspect) {[pk]} (testimonies db);
     del_clues := ∅; del_evidences := ∅; del_messages := ∅;
     del_calls := ∅ |}.
Proof.
  unfold collect. tidy_collector. reflexivity.
Qed.

Lemma collect_location db pk :
  collect db ∅ ∅ {[pk]} ∅ =
  {| del_victims := ∅; del_cases := ∅; del_locations := {[pk]};
     del_suspects := ∅; del_motives := ∅; del_testimonies := ∅;
     del_clues := referrers (Some ∘ Clue.location) {[pk]} (clues db);
     del_evidences := ∅; del_messages := ∅; del_calls := ∅ |}.
Proof.
  unfold collect. tidy_collector. reflexivity.
Qed.

(** ** Deleting a suspect *)

(** C7: deleting a Suspect leaves every Clue, Evidence, Message and
    CallRecord whose [related_suspect] references it in the database, the
    row being the one it was with [related_suspect] set to absent and every
    other field as before. *)
Theorem delete_suspect_clears_related_suspect (db : Db) (pk : nat) :
  (∀ k x, clues db !! k = Some x → Clue.related_suspect x = Some pk →
     clues (delete_suspect pk db) !! k =
       Some (Clue.mk (Clue.base x) (Clue.case x) (Clue.location x)
               (Clue.description x) (Clue.found_at x) None))
  ∧ (∀ k x, evidences db !! k = Some x →
       Evidence.related_suspect x = Some pk →
       evidences (delete_suspect pk db) !! k =
         Some (Evidence.mk (Evidence.base x) (Evidence.case x)
                 (Evidence.description x) (Evidence.obtained_from x)
                 (Evidence.date_obtained x) None))
  ∧ (∀ k x, messages db !! k = Some x →
       Message.related_suspect x = Some pk →
       messages (delete_suspect pk db) !! k =
         Some (Message.mk (Message.base x) (Message.case x)
                 (Message.sender x) (Message.receiver x)
                 (Message.timestamp x) (Message.content x) None))
  ∧ (∀ k x, calls db !! k = Some x →
       CallRecord.related_suspect x = Some pk →
       calls (delete_suspect pk db) !! k =
         Some (CallRecord.mk (CallRecord.base x) (CallRecord.case x)
                 (CallRecord.caller x) (CallRecord.callee x)
                 (CallRecord.timestamp x) (CallRecord.duration x) None)).
Proof.
  unfold delete_suspect. rewrite collect_suspect. unfold execute. project.
  repeat split; intros k x Hk Hfk; rewrite lookup_remove_empty.
  - apply (lookup_set_null_hit _ Clue.clear_related_suspect); [done|].
    unfold points_into. rewrite Hfk. set_solver.
  - rewrite nulled_by_empty.
    apply (lookup_set_null_hit _ Evidence.clear_related_suspect); [done|].
    unfold points_into. rewrite Hfk. set_solver.
  - apply (lookup_set_null_hit _ Message.clear_related_suspect); [done|].
    unfold points_into. rewrite Hfk. set_solver.
  - apply (lookup_set_null_hit _ CallRecord.clear_related_suspect); [done|].
    unfold points_into. rewrite Hfk. set_solver.
Qed.

Lemma delete_suspect_clears_related_suspect_witness :
  clues (delete_suspect 0 sample_db) !! 0 =
    Some (Clue.mk sample_base 0 0 (Some "Broken vase") 3%Z None)
  ∧ evidences (delete_suspect 0 sample_db) !! 0 =
      Some (Evidence.mk sample_base 0 "Autopsy report" (Some 0) 4%Z None)
  ∧ messages (delete_suspect 0 sample_db) !! 0 =
      Some (Message.mk sample_base 0 (Some "Ada") None 9%Z
              "Meet me at nine" None)
  ∧ calls (delete_suspect 0 sample_db) !! 0 =
      Some (CallRecord.mk sample_base 0 None (Some "Ada") 10%Z (Some 60) None).
Proof.
  destruct (delete_suspect_clears_related_suspect sample_db 0)
    as (Hc & He & Hm & Hr).
  split; [|split; [|split]].
  - apply (Hc 0 sample_clue); reflexivity.
  - apply (He 0 sample_evidence); reflexivity.
  - apply (Hm 0 sample_message); reflexivity.
  - apply (Hr 0 sample_call); reflexivity.
Defined.

(** ** Deleting a location *)

(** C1, as the claim states it: a Clue that references the deleted Location
    would stay in the database.  It does not. *)
Lemma delete_location_keeps_clue_counterexample :
  ¬ (∀ db pk k x,
       clues db !! k = Some x → Clue.location x = pk →
       is_Some (clues (delete_location pk db) !! k)).
Proof.
  intros H.
  destruct (H sample_db 0 0 sample_clue eq_refl eq_refl) as [y Hy].
  vm_compute in Hy. discriminate Hy.
Qed.

(** C1, amended: deleting a Location deletes every Clue whose [location]
    references it (the reference is required and declared [CASCADE]), while
    every Evidence whose [obtained_from] references it stays, with
    [obtained_from] set to absent and every other field as before. *)
Theorem delete_location_cascades_clues_nulls_evidences (db : Db) (pk : nat) :
  (∀ k x, clues db !! k = Some x → Clue.location x = pk →
     clues (delete_location pk db) !! k = None)
  ∧ (∀ k x, evidences db !! k = Some x →
       Evidence.obtained_from x = Some pk →
       evidences (delete_location pk db) !! k =
         Some (Evidence.mk (Evidence.base x) (Evidence.case x)
                 (Evidence.description x) None (Evidence.date_obtained x)
                 (Evidence.related_suspect x))).
Proof.
  unfold delete_location. rewrite collect_location. unfold execute. project.
  split; intros k x Hk Hfk.
  - apply lookup_remove_in. apply elem_of_referrers. exists x.
    split; [done|]. unfold points_into. simpl. rewrite Hfk. set_solver.
  - rewrite lookup_remove_empty, nulled_by_empty.
    apply (lookup_set_null_hit _ Evidence.clear_obtained_from); [done|].
    unfold points_into. rewrite Hfk. set_solver.
Qed.

Lemma delete_location_cascades_clues_nulls_evidences_witness :
  clues (delete_location 0 sample_db) !! 0 = None
  ∧ evidences (delete_location 0 sample_db) !! 0 =
      Some (Evidence.mk sample_base 0 "Autopsy report" None 4%Z (Some 0)).
Proof.
  destruct (delete_location_cascades_clues_nulls_evidences sample_db 0)
    as (Hc & He).
  split.
  - apply (Hc 0 sample_clue); reflexivity.
  - apply (He 0 sample_evidence); reflexivity.
Defined.

(** ** Deleting a case *)

(** C2: deleting a Case removes the Case, its Locations, Suspects, Clues,
    Evidences, Messages and CallRecords, and the Motives and Testimonies of
    every Suspect under it; more generally no row that the Case owns
    through a chain of cascading references is left. *)
Theorem delete_case_removes_everything_owned (db : Db) (pk : nat) :
  cases (delete_case pk db) !! pk = None
  ∧ (∀ k x, locations db !! k = Some x → Location.case x = pk →
       locations (delete_case pk db) !! k = None)
  ∧ (∀ k x, suspects db !! k = Some x → Suspect.case x = pk →
       suspects (delete_case pk db) !! k = None)
  ∧ (∀ k x, clues db !! k = Some x → Clue.case x = pk →
       clues (delete_case pk db) !! k = None)
  ∧ (∀ k x, evidences db !! k = Some x → Evidence.case x = pk →
       evidences (delete_case pk db) !! k = None)
  ∧ (∀ k x, messages db !! k = Some x → Message.case x = pk →
       messages (delete_case pk db) !! k = None)
  ∧ (∀ k x, calls db !! k = Some x → CallRecord.case x = pk →
       calls (delete_case pk db) !! k = None)
  ∧ (∀ k x s, motives db !! k = Some x →
       suspects db !! Motive.suspect x = Some s → Suspect.case s = pk →
       motives (delete_case pk db) !! k = None)
  ∧ (∀ k x s, testimonies db !! k = Some x →
       suspects db !! Testimony.suspect x = Some s → Suspect.case s = pk →
       testimonies (delete_case pk db) !! k = None)
  ∧ (∀ r, owned db (a_case pk) r → ¬ present (delete_case pk db) r).
Proof.
  assert (Hgen : ∀ r, owned db (a_case pk) r → ¬ present (delete_case pk db) r).
  { intros r Ho. apply execute_removes.
    apply (owned_collected _ _ _ _ _ (a_case pk)); [|done].
    simpl. set_solver. }
  assert (Hchild : ∀ r, cascades db (a_case pk) r →
                        ¬ present (delete_case pk db) r).
  { intros r Hc. apply Hgen. eapply owned_step; [apply owned_root | done]. }
  repeat split.
  - apply eq_None_not_Some, (Hgen (a_case pk)), owned_root.
  - intros k x Hk <-. apply eq_None_not_Some, (Hchild (a_location k)).
    by constructor.
  - intros k x Hk <-. apply eq_None_not_Some, (Hchild (a_suspect k)).
    by constructor.
  - intros k x Hk <-. apply eq_None_not_Some, (Hchild (a_clue k)).
    by apply Clue_case.
  - intros k x Hk <-. apply eq_None_not_Some, (Hchild (an_evidence k)).
    by constructor.
  - intros k x Hk <-. apply eq_None_not_Some, (Hchild (a_message k)).
    by constructor.
  - intros k x Hk <-. apply eq_None_not_Some, (Hchild (a_call k)).
    by constructor.
  - intros k x s Hk Hs <-. apply eq_None_not_Some, (Hgen (a_motive k)).
    eapply owned_step; [|by apply Motive_suspect].
    eapply owned_step; [apply owned_root | by apply Suspect_case].
  - intros k x s Hk Hs <-. apply eq_None_not_Some, (Hgen (a_testimony k)).
    eapply owned_step; [|by apply Testimony_suspect].
    eapply owned_step; [apply owned_root | by apply Suspect_case].
  - exact Hgen.
Qed.

Lemma delete_case_removes_everything_owned_witness :
  motives (delete_case 0 sample_db) !! 1 = None
  ∧ clues (delete_case 0 sample_db) !! 0 = None
  ∧ ¬ present (delete_case 0 sample_db) (a_testimony 0).
Proof.
  destruct (delete_case_removes_everything_owned sample_db 0)
    as (_ & _ & _ & Hc & _ & _ & _ & Hm & _ & Hgen).
  split; [|split].
  - apply (Hm 1 motive_with_description
             (Suspect.mk sample_base 0 "Ada" 40 None None None None));
      reflexivity.
  - apply (Hc 0 sample_clue); reflexivity.
  - apply Hgen.
    apply (owned_step _ _ (a_suspect 0)).
    + apply (owned_step _ _ (a_case 0)); [apply owned_root|].
      apply (Suspect_case sample_db 0
               (Suspect.mk sample_base 0 "Ada" 40 None None None None)).
      reflexivity.
    + apply (Testimony_suspect sample_db 0
               (Testimony.mk sample_base 0 8%Z None)).
      reflexivity.
Defined.

(** ** Creating accounts *)


(** What [save] does: it writes the object under its key, or under the
    allocated one, exactly when the database accepts it, and else raises
    and writes nothing. *)
Lemma save_cases next_id enf (u : User.t) (db : UserDb) :
  (accepted next_id enf u db
   ∧ ∃ k, (User.id u = Some k
           ∨ User.id u = None ∧ k = next_id db ∧ k ∉ dom (users db))
       ∧ save next_id enf u db =
           (Return (User.set_id k u),
            {| users := <[k := User.set_id k u]> (users db);
               journal := journal db ++ [User.set_id k u] |}))
  ∨ (¬ accepted next_id enf u db
     ∧ ∃ e, save next_id enf u db = (Raise e, db)
            ∧ (e = IntegrityError ∨ e = DataError)).
Proof.
  unfold save, accepted.
  destruct (enf && negb (fits_columns u)) eqn:Hlen.
  { right. apply andb_true_iff in Hlen as [-> Hfit].
    apply negb_true_iff in Hfit. split; [|eauto].
    intros (Hf & _). specialize (Hf eq_refl). congruence. }
  assert (Hfit : enf = true → fits_columns u = true).
  { intros ->. simpl in Hlen. by apply negb_false_iff in Hlen. }
  destruct (not_null u) eqn:Hnull; simpl.
  2: { right. split; [|eauto]. by intros (_ & [=] & _). }
  destruct (decide (email_free (User.id u) (User.email u) (users db)))
    as [Hfree|Hdup].
  2: { right. split; [|eauto]. by intros (_ & _ & ? & _). }
  destruct (User.id u) as [k|] eqn:Hid.
  - rewrite decide_False by (by intros [[=] _]).
    left. split; [done|]. exists k. split; [by left | done].
  - destruct (decide (None = None ∧ next_id db ∈ dom (users db)))
      as [[_ Hin]|Hout].
    + right. split; [|eauto]. intros (_ & _ & _ & Hfresh).
      by apply Hfresh.
    + assert (Hfresh : next_id db ∉ dom (users db)) by (intros ?; by apply Hout).
      left. split; [done|]. exists (next_id db). split; [by right | done].
Qed.

(** The constructor refuses the keywords that name no column as soon as
    there is one, with one of two exceptions. *)
Lemma refused_keyword_cases (keywords : list Keyword) :
  (keywords = [] ∧ refused_keyword keywords false = None)
  ∨ (keywords ≠ []
     ∧ ∃ e, refused_keyword keywords false = Some e
            ∧ (e = TypeError ∨ e = AttributeError)).
Proof.
  assert (Hseen : ∀ ks, ∃ e, refused_keyword ks true = Some e
                             ∧ (e = TypeError ∨ e = AttributeError)).
  { induction ks as [|[] ks IH]; simpl; eauto. }
  destruct keywords as [|[] ks]; simpl; [left; done | right; split; eauto..].
Qed.

(** [create_user], by cases: no email, a keyword that names no column, or
    a save of the object the constructor built. *)
Lemma create_user_cases make_password next_id enf email password xf db :
  (Str.truthy email = false
   ∧ ∃ msg, create_user make_password next_id enf email password xf db
            = (Raise (ValueError msg), db))
  ∨ (Str.truthy email = true ∧ xf_other xf ≠ []
     ∧ ∃ e, (e = TypeError ∨ e = AttributeError)
            ∧ model (normalize_email email) xf = Raise e
            ∧ create_user make_password next_id enf email password xf db
              = (Raise e, db))
  ∨ (Str.truthy email = true ∧ xf_other xf = []
     ∧ ∃ user,
         model (normalize_email email) xf = Return user
         ∧ User.email user = normalize_email email
         ∧ User.id user = default None (xf_id xf)
         ∧ create_user make_password next_id enf email password xf db
           = save next_id enf (set_password make_password password user) db).
Proof.
  unfold create_user, model.
  destruct (Str.truthy email); simpl; [|left; eauto].
  destruct (refused_keyword_cases (xf_other xf))
    as [(Hnone & ->) | (Hsome & e & -> & He)]; right; [right | left].
  - split_and!; try done. eexists. split_and!; reflexivity.
  - split_and!; try done. exists e. done.
Qed.

(** Once a row was written under a key, saving it again under that key
    with the same email passes the uniqueness check. *)
Lemma email_free_after_write (self : option nat) (e : string) (k : nat)
    (row : User.t) (tbl : gmap nat User.t) :
  email_free self e tbl → self = None ∨ self = Some k →
  email_free (Some k) e (<[k := row]> tbl).
Proof.
  unfold email_free. intros Hfree Hself. apply map_Forall_insert_2; [done|].
  intros k' row' Hk' He. specialize (Hfree k' row' Hk' He).
  destruct Hself as [-> | ->]; [discriminate Hfree | done].
Qed.

(** After a successful save, the saved object with [is_staff] and
    [is_superuser] set is saved again without fail. *)
Lemma save_again next_id enf (u : User.t) (db : UserDb) (k : nat) :
  accepted next_id enf u db →
  User.id u = Some k ∨ User.id u = None →
  let u1 := User.set_id k u in
  let db1 := {| users := <[k := u1]> (users db);
                journal := journal db ++ [u1] |} in
  let u2 := User.set_is_superuser true (User.set_is_staff true u1) in
  save next_id enf u2 db1
  = (Return u2, {| users := <[k := u2]> (users db1);
                   journal := journal db1 ++ [u2] |}).
Proof.
  intros (Hfit & Hnull & Hfree & _) Hid u1 db1 u2.
  destruct (save_cases next_id enf u2 db1)
    as [(_ & k' & Hk' & ->) | (Hno & _)].
  - destruct Hk' as [Hk' | [Hk' _]]; [|discriminate Hk'].
    by injection Hk' as <-.
  - exfalso. apply Hno. unfold accepted. split_and!.
    + exact Hfit.
    + unfold not_null in *. subst u2 u1. simpl.
      by destruct (User.is_superuser u), (User.name u), (User.is_active u),
        (User.is_staff u).
    + subst u2 u1 db1. simpl. apply email_free_after_write with (User.id u);
        [done | destruct Hid as [-> | ->]; auto].
    + intros [=].
Qed.

(** C9: every account that superuser-creation returns has [is_staff] and
    [is_superuser] set, and this is the row stored under its key. *)
Theorem create_superuser_is_staff_and_superuser
    (make_password : option string → string) (next_id : UserDb → nat)
    (enf : bool) (email password : option string) (db db' : UserDb)
    (user : User.t) :
  create_superuser make_password next_id enf email password db
    = (Return user, db') →
  User.is_staff user = Some true
  ∧ User.is_superuser user = Some true
  ∧ ∃ k, User.id user = Some k ∧ users db' !! k = Some user.
Proof.
  unfold create_superuser.
  destruct (create_user make_password next_id enf email password
              no_extra_fields db) as [[u1|e] db1]; [|discriminate].
  set (u2 := User.set_is_superuser true (User.set_is_staff true u1)).
  destruct (save_cases next_id enf u2 db1)
    as [(_ & k & _ & ->) | (_ & e & -> & _)]; [|discriminate].
  intros [= <- <-]. simpl. split_and!; try done.
  exists k. split; [done|]. apply lookup_insert_eq.
Qed.

Lemma create_superuser_is_staff_and_superuser_witness :
  ∃ user db',
    create_superuser sample_hasher sample_next_id false
      (Some "Root@Example.ORG") (Some "secret") empty_db = (Return user, db')
    ∧ User.is_staff user = Some true ∧ User.is_superuser user = Some true.
Proof.
  eexists _, _. split; [vm_compute; reflexivity|].
  edestruct (create_superuser_is_staff_and_superuser sample_hasher
               sample_next_id false (Some "Root@Example.ORG")
               (Some "secret") empty_db)
    as (Hs & Hsu & _); [vm_compute; reflexivity|].
  split; [exact Hs | exact Hsu].
Defined.

(** [create_superuser], by cases on what [create_user] does: the second
    save is always accepted. *)
Lemma create_superuser_cases make_password next_id enf
    (email password : option string) (db : UserDb) :
  (∃ e, create_user make_password next_id enf email password
          no_extra_fields db = (Raise e, db)
        ∧ create_superuser make_password next_id enf email password db
          = (Raise e, db))
  ∨ (∃ u1 db1 k,
       create_user make_password next_id enf email password
         no_extra_fields db = (Return u1, db1)
       ∧ User.id u1 = Some k
       ∧ (k ∉ dom (users db))
       ∧ users db1 = <[k := u1]> (users db)
       ∧ journal db1 = (journal db ++ [u1])%list
       ∧ User.is_staff u1 = Some false
       ∧ User.is_superuser u1 = Some false
       ∧ let u2 := User.set_is_superuser true (User.set_is_staff true u1) in
         create_superuser make_password next_id enf email password db
         = (Return u2,
            {| users := <[k := u2]> (users db1);
               journal := (journal db1 ++ [u2])%list |})).
Proof.
  unfold create_superuser.
  destruct (create_user_cases make_password next_id enf email password
              no_extra_fields db)
    as [(_ & msg & ->)
       | [(_ & _ & e & _ & _ & ->) | (_ & _ & u & Hmodel & _ & Hid & ->)]];
    [left; eauto | left; eauto |].
  injection Hmodel as <-. simpl in Hid.
  set (u0 := set_password make_password password _) in *.
  destruct (save_cases next_id enf u0 db)
    as [(Hok & k & Hk & Hsave) | (_ & e & -> & _)]; [|left; eauto].
  right. destruct Hk as [Hk | (_ & -> & Hfresh)]; [discriminate Hk|].
  rewrite Hsave.
  exists (User.set_id (next_id db) u0),
    {| users := <[next_id db := User.set_id (next_id db) u0]> (users db);
       journal := journal db ++ [User.set_id (next_id db) u0] |},
    (next_id db).
  split_and!; try done.
  apply (save_again next_id enf u0 db (next_id db) Hok). by right.
Qed.

(** C5, as the claim states it: no row written by superuser-creation would
    have [is_staff] or [is_superuser] false.  The first write has both. *)
Lemma create_superuser_single_write_counterexample :
  ¬ (∀ make_password next_id enf email password db user db',
       create_superuser make_password next_id enf email password db
         = (Return user, db') →
       ∀ row, row ∈ drop (length (journal db)) (journal db') →
         User.is_staff row = Some true ∧ User.is_superuser row = Some true).
Proof.
  intros H.
  destruct (H sample_hasher sample_next_id false (Some "Root@Example.ORG")
              (Some "secret") empty_db
              (User.mk (Some 1) "hashed$secret" None (Some true)
                 "Root@example.org" (Some "") (Some true) (Some true))
              _ eq_refl
              (User.mk (Some 1) "hashed$secret" None (Some false)
                 "Root@example.org" (Some "") (Some true) (Some false)))
    as [Hstaff _].
  - vm_compute. apply list_elem_of_here.
  - discriminate Hstaff.
Qed.

(** C5, amended: each [save] is one entity write, and superuser-creation
    makes two.  When it succeeds, the first write persists the account with
    [is_staff] and [is_superuser] false, the second persists the same
    account with both true; when it fails, it has written nothing. *)
Theorem create_superuser_writes_twice
    (make_password : option string → string) (next_id : UserDb → nat)
    (enf : bool) (email password : option string) (db : UserDb) :
  match create_superuser make_password next_id enf email password db with
  | (Return user, db') =>
      ∃ first,
        journal db' = (journal db ++ [first; user])%list
        ∧ User.is_staff first = Some false
        ∧ User.is_superuser first = Some false
        ∧ User.is_staff user = Some true
        ∧ User.is_superuser user = Some true
        ∧ User.id first = User.id user
        ∧ User.email first = User.email user
  | (Raise _, db') => db' = db
  end.
Proof.
  destruct (create_superuser_cases make_password next_id enf email password
              db)
    as [(e & _ & ->)
       | (u1 & db1 & k & _ & Hid & _ & _ & Hj & Hst & Hsu & ->)]; [done|].
  exists u1. simpl. rewrite Hj, <- app_assoc. split_and!; done.
Qed.




(** ** Email normalisation *)

Lemma rsplit_at_None (s : string) :
  Str.contains "@" s = false → Str.rsplit_at s = None.
Proof.
  induction s as [|c s IH]; simpl; [done|].
  intros H. apply orb_false_iff in H as [Hc Hs].
  by rewrite (IH Hs), Hc.
Qed.

Lemma rsplit_at_last (a b : string) :
  Str.contains "@" b = false →
  Str.rsplit_at (a +:+ "@" +:+ b) = Some (a, b).
Proof.
  intros Hb. induction a as [|c a IH].
  - change (Str.rsplit_at (String "@" b) = Some ("", b)). simpl.
    by rewrite (rsplit_at_None b Hb).
  - change (Str.rsplit_at (String c (a +:+ "@" +:+ b))
            = Some (String c a, b)).
    simpl. by rewrite IH.
Qed.

Lemma contains_lstrip (c : ascii) (s : string) :
  Str.contains c (Str.lstrip s) = true → Str.contains c s = true.
Proof.
  induction s as [|a s IH]; simpl; [done|].
  destruct (Str.isspace a); [|done].
  intros H. rewrite (IH H). apply orb_true_r.
Qed.

Lemma contains_rstrip (c : ascii) (s : string) :
  Str.contains c (Str.rstrip s) = true → Str.contains c s = true.
Proof.
  induction s as [|a s IH]; simpl; [done|].
  destruct (Str.rstrip s) as [|x r] eqn:Hr.
  - destruct (Str.isspace a); simpl; [done|].
    rewrite orb_false_r. intros ->. done.
  - simpl in *. intros H. apply orb_true_iff in H as [->|H]; [done|].
    rewrite (IH H). apply orb_true_r.
Qed.

Lemma contains_strip (c : ascii) (s : string) :
  Str.contains c s = false → Str.contains c (Str.strip s) = false.
Proof.
  intros Hs. unfold Str.strip.
  destruct (Str.contains c (Str.rstrip (Str.lstrip s))) eqn:H; [|done].
  apply contains_rstrip, contains_lstrip in H. congruence.
Qed.

(** [normalize_email] by cases on the ["@"]. *)
Lemma normalize_email_no_at (e : string) :
  Str.contains "@" e = false → normalize_email (Some e) = e.
Proof.
  intros H. unfold normalize_email.
  by rewrite (rsplit_at_None _ (contains_strip _ _ H)).
Qed.

Lemma normalize_email_at (e email_name domain_part : string) :
  Str.strip e = email_name +:+ "@" +:+ domain_part →
  Str.contains "@" domain_part = false →
  normalize_email (Some e) = email_name +:+ "@" +:+ Str.lower domain_part.
Proof.
  intros He Hd. unfold normalize_email.
  by rewrite He, (rsplit_at_last _ _ Hd).
Qed.

(** The email of a created user is the normalised one. *)
Lemma create_user_email make_password next_id enf email password xf db
    user db' :
  create_user make_password next_id enf email password xf db
    = (Return user, db') →
  User.email user = normalize_email email.
Proof.
  destruct (create_user_cases make_password next_id enf email password xf db)
    as [(_ & msg & ->)
       | [(_ & _ & e & _ & _ & ->) | (_ & _ & u & _ & Hemail & _ & ->)]];
    [discriminate | discriminate |].
  set (u0 := set_password make_password password u).
  destruct (save_cases next_id enf u0 db)
    as [(_ & k & _ & ->) | (_ & x & -> & _)]; [|discriminate].
  by intros [= <- _].
Qed.

(** C4, as the claim states it: the stored email would be the input with
    the part after the ["@"] lower-cased and the part before it as given.
    White space around the input is dropped. *)
Lemma create_user_keeps_local_part_counterexample :
  ¬ (∀ make_password next_id enf local domain password xf db user db',
       create_user make_password next_id enf
         (Some (local +:+ "@" +:+ domain)) password xf db
         = (Return user, db') →
       User.email user = local +:+ "@" +:+ Str.lower domain).
Proof.
  intros H.
  specialize (H sample_hasher sample_next_id false " Jane" "EXAMPLE.com"
                (Some "secret") no_extra_fields empty_db _ _ eq_refl).
  vm_compute in H. discriminate H.
Qed.

(** C4, amended: an accepted email with no ["@"] is stored as given;
    otherwise the stored email is the input without its leading and
    trailing white space, the part after its last ["@"] lower-cased and the
    part before that ["@"] character for character. *)
Theorem create_user_stores_normalized_email
    (make_password : option string → string) (next_id : UserDb → nat)
    (enf : bool) (e : string) (password : option string)
    (xf : extra_fields) (db db' : UserDb) (user : User.t) :
  create_user make_password next_id enf (Some e) password xf db
    = (Return user, db') →
  (Str.contains "@" e = false → User.email user = e)
  ∧ (∀ local domain,
       Str.strip e = local +:+ "@" +:+ domain →
       Str.contains "@" domain = false →
       User.email user = local +:+ "@" +:+ Str.lower domain).
Proof.
  intros Hrun. apply create_user_email in Hrun. rewrite Hrun. split.
  - apply normalize_email_no_at.
  - intros local domain. apply normalize_email_at.
Qed.

Lemma create_user_stores_normalized_email_witness :
  ∃ user db',
    create_user sample_hasher sample_next_id false
      (Some "  Jane.Doe@Mail.EXAMPLE.com ") (Some "secret") no_extra_fields
      empty_db = (Return user, db')
    ∧ User.email user = "Jane.Doe@mail.example.com".
Proof.
  eexists _, _. split; [vm_compute; reflexivity|].
  edestruct (create_user_stores_normalized_email sample_hasher
               sample_next_id false "  Jane.Doe@Mail.EXAMPLE.com "
               (Some "secret") no_extra_fields empty_db)
    as (_ & Hat); [vm_compute; reflexivity|].
  apply (Hat "Jane.Doe" "Mail.EXAMPLE.com"); reflexivity.
Defined.

(** ** Rendering a motive *)

(** With a description present and the suspect in the database, the
    rendering is the prefix, the suspect's name and the first fifty
    characters of the description. *)
Lemma Motive_str_present (db : Db) (self : Motive.t) (suspect : Suspect.t)
    (d : string) :
  suspects db !! Motive.suspect self = Some suspect →
  Motive.motive_description self = Some d →
  Motive_str db self =
    Return ("Motive for " +:+ Suspect.name suspect +:+ ": "
            +:+ Str.slice_to 50 d).
Proof. intros Hs Hd. unfold Motive_str. by rewrite Hs, Hd. Qed.

(** The slice is a prefix of the description, fifty characters long unless
    the description is shorter. *)
Lemma slice_to_length (n : nat) (s : string) :
  String.length (Str.slice_to n s) = Nat.min n (String.length s).
Proof.
  unfold Str.slice_to. revert s.
  induction n as [|n IH]; intros [|c s]; simpl; try done.
  by rewrite IH.
Qed.

Lemma slice_to_prefix (n : nat) (s : string) :
  ∃ rest, s = Str.slice_to n s +:+ rest.
Proof.
  unfold Str.slice_to. revert s.
  induction n as [|n IH]; intros [|c s].
  - by exists "".
  - by exists (String c s).
  - by exists "".
  - destruct (IH s) as [rest Hrest]. exists rest.
    change (String c s = String c (substring 0 n s +:+ rest)).
    by rewrite <- Hrest.
Qed.

(** C6: a Motive stored without a description (the field is optional) has
    no rendering: [__str__] raises [TypeError] where the claim promises the
    prefix followed by the first fifty characters. *)
Theorem Motive_str_without_description_raises :
  motives sample_db !! 0 = Some motive_without_description
  ∧ Motive_str sample_db motive_without_description = Raise TypeError.
Proof. split; reflexivity. Qed.

(** C10: a Motive whose description is absent is never rendered, the error
    branch is taken; and with the description present (and the suspect it
    points to in the database) the rendering returns. *)
Theorem Motive_str_total_only_with_description (db : Db) (self : Motive.t) :
  (Motive.motive_description self = None → raised (Motive_str db self))
  ∧ (returned (Motive_str db self) →
       is_Some (Motive.motive_description self))
  ∧ (is_Some (Motive.motive_description self) →
       is_Some (suspects db !! Motive.suspect self) →
       returned (Motive_str db self)).
Proof.
  unfold Motive_str, raised, returned.
  destruct (suspects db !! Motive.suspect self) as [s|],
    (Motive.motive_description self) as [d|]; (split; [|split]);
    first [ by intros [=] | by intros [? [=]] | by intros _ [? [=]]
          | by eauto ].
Qed.

Lemma Motive_str_total_only_with_description_witness :
  raised (Motive_str sample_db motive_without_description)
  ∧ returned (Motive_str sample_db motive_with_description).
Proof.
  split.
  - apply (Motive_str_total_only_with_description sample_db
             motive_without_description).
    reflexivity.
  - apply (Motive_str_total_only_with_description sample_db
             motive_with_description).
    + by eexists.
    + by eexists.
Defined.

(** ** Timestamps *)

Section TimestampLemmas.

Variable clock : nat → Z.

(** What the first save stores. *)
Lemma first_save_Return (x : BaseModel.t) (r : nat) (st : Persisted) :
  first_save clock x r = Return st →
  st = {| object := BaseModel.mk (BaseModel.is_active x) (Some (clock r))
                      (Some (clock (S r)));
          stored := BaseModel.mk (BaseModel.is_active x) (Some (clock r))
                      (Some (clock (S r)));
          reads := S (S r) |}.
Proof.
  unfold first_save. simpl. destruct (BaseModel.is_active x); [|done].
  by intros [= <-].
Qed.

(** The row after a modification carries the [updated_at] it had, or a
    reading of the clock taken by this save. *)
Lemma modify_updated_at (e : Edit) (st : Persisted) :
  (via e = queryset_update → assign_updated_at e = None) →
  (reads st ≤ reads (snd (modify clock e st)))%nat
  ∧ (BaseModel.updated_at (stored (snd (modify clock e st)))
       = BaseModel.updated_at (stored st)
     ∨ ∃ r, BaseModel.updated_at (stored (snd (modify clock e st)))
              = Some (clock r)
            ∧ (reads st ≤ r < reads (snd (modify clock e st)))%nat).
Proof.
  intros Hvia. unfold modify. destruct (via e).
  - unfold save_object, pre_save_auto_now_add, pre_save_auto_now,
      timezone_now.
    destruct (writes (update_fields e) created_at_field),
      (writes (update_fields e) updated_at_field),
      (writes (update_fields e) is_active_field); simpl;
      repeat case_bool_decide; simpl;
      (split; [lia|]); first [ by left | right; eexists; split; [done|lia] ].
  - unfold update_columns. rewrite (Hvia eq_refl). simpl.
    repeat case_bool_decide; simpl; (split; [lia | by left]).
Qed.

(** The row after a modification that does not assign [created_at] has
    the [created_at] it had, if the object agreed with the row on it; and
    they still agree. *)
Lemma modify_created_at (e : Edit) (st : Persisted) :
  assign_created_at e = None →
  BaseModel.created_at (object st) = BaseModel.created_at (stored st) →
  BaseModel.created_at (stored (snd (modify clock e st)))
    = BaseModel.created_at (stored st)
  ∧ BaseModel.created_at (object (snd (modify clock e st)))
    = BaseModel.created_at (stored st).
Proof.
  intros He Hagree. unfold modify. destruct (via e).
  - unfold save_object, pre_save_auto_now_add, pre_save_auto_now,
      timezone_now.
    rewrite He.
    destruct (refetch e),
      (writes (update_fields e) created_at_field),
      (writes (update_fields e) updated_at_field),
      (writes (update_fields e) is_active_field); simpl;
      repeat case_bool_decide; simpl; rewrite ?Hagree; done.
  - unfold update_columns. rewrite He. simpl.
    repeat case_bool_decide; simpl; done.
Qed.

Hypothesis clock_nondecreasing : nondecreasing clock.

(** Every later row carries in [updated_at] the reading the row has now,
    or a later one. *)
Lemma history_readings (edits : list Edit) :
  ∀ (st : Persisted) (last : nat),
    updated_at_left_to_save edits →
    BaseModel.updated_at (stored st) = Some (clock last) →
    (last < reads st)%nat →
    Forall (λ y, ∃ r, BaseModel.updated_at y = Some (clock r)
                      ∧ (last ≤ r)%nat)
      (history clock edits st)
    ∧ StronglySorted updated_le (history clock edits st).
Proof.
  induction edits as [|e edits IH]; intros st last Hleft Hu Hlt; simpl.
  - split; constructor.
  - apply Forall_cons in Hleft as [He Hleft].
    destruct (modify_updated_at e st He) as [Hreads Hcase].
    set (st' := snd (modify clock e st)) in *.
    assert (Hnext : ∃ r, BaseModel.updated_at (stored st') = Some (clock r)
                         ∧ (last ≤ r < reads st')%nat).
    { destruct Hcase as [Hsame | (r & Hr & Hle)].
      - exists last. rewrite Hsame. split; [done | lia].
      - exists r. split; [done | lia]. }
    destruct Hnext as (r & Hr & Hle).
    destruct (IH st' r Hleft Hr) as [Hall Hsort]; [lia|].
    split.
    + constructor.
      * exists r. split; [done | lia].
      * eapply Forall_impl; [exact Hall|]. simpl.
        intros z (r' & Hr' & Hle'). exists r'. split; [done | lia].
    + constructor; [done|].
      eapply Forall_impl; [exact Hall|]. simpl.
      intros z (r' & Hr' & Hle'). exists (clock r), (clock r').
      split_and!; [done..|]. by apply clock_nondecreasing.
Qed.

(** With [created_at] left alone, every later row has the [created_at] of
    the row now. *)
Lemma history_created_at (edits : list Edit) :
  ∀ st : Persisted,
    created_at_left_alone edits →
    BaseModel.created_at (object st) = BaseModel.created_at (stored st) →
    Forall (λ y, BaseModel.created_at y = BaseModel.created_at (stored st))
      (history clock edits st).
Proof.
  induction edits as [|e edits IH]; intros st Halone Hagree; simpl.
  - constructor.
  - apply Forall_cons in Halone as [He Halone].
    destruct (modify_created_at e st He Hagree) as [Hrow Hobj].
    constructor; [done|]. rewrite <- Hrow. apply IH; [done|].
    by rewrite Hobj, Hrow.
Qed.

End TimestampLemmas.

(** C8, as the claim states it: at creation [updated_at] would equal
    [created_at], [created_at] would never change afterwards, and
    [updated_at] would never decrease.  Each of the two fields reads the
    clock for itself, and the clock may have advanced in between; a save
    writes back the [created_at] the object carries, whatever the caller
    has set it to; and an update through the manager writes the
    [updated_at] it is given. *)
Lemma updated_at_equals_created_at_counterexample :
  ¬ (∀ clock, nondecreasing clock → ∀ active reads,
       BaseModel.updated_at (fst (create_common clock active reads))
       = BaseModel.created_at (fst (create_common clock active reads)))
  ∧ ¬ (∀ clock, nondecreasing clock → ∀ x r st edits,
         first_save clock x r = Return st →
         Forall (λ y, BaseModel.created_at y
                      = BaseModel.created_at (stored st))
           (history clock edits st))
  ∧ ¬ (∀ clock, nondecreasing clock → ∀ x r st edits,
         first_save clock x r = Return st →
         Forall (updated_le (stored st)) (history clock edits st)).
Proof.
  assert (Hclock : nondecreasing Z.of_nat) by (intros i j Hij; lia).
  split_and!; intros H.
  - specialize (H Z.of_nat Hclock true 0). vm_compute in H. discriminate H.
  - specialize (H Z.of_nat Hclock (BaseModel.new true) 0 _
                  [ {| via := instance_save; wait := 0; refetch := false;
                       assign_is_active := None;
                       assign_created_at := Some (Some 999%Z);
                       assign_updated_at := None;
                       update_fields := None |} ]
                  eq_refl).
    apply Forall_cons in H as [H _]. vm_compute in H. discriminate H.
  - specialize (H Z.of_nat Hclock (BaseModel.new true) 5 _
                  [ {| via := queryset_update; wait := 0; refetch := false;
                       assign_is_active := None;
                       assign_created_at := None;
                       assign_updated_at := Some (Some 2%Z);
                       update_fields := None |} ]
                  eq_refl).
    apply Forall_cons in H as [(u & v & Hu & Hv & Hle) _].
    vm_compute in Hu, Hv. injection Hu as <-. injection Hv as <-. lia.
Qed.

(** C8, amended: on a clock that never runs backwards, [updated_at] is at
    or after [created_at] at creation; through every series of
    modifications none of which writes [updated_at] through the manager,
    whatever they assign and whichever fields they save, [updated_at]
    never decreases from one persisted state to any later one; as long as
    no modification assigns [created_at], it keeps its value of creation;
    and under both conditions [updated_at] stays at or after
    [created_at]. *)
Theorem timestamps_through_modifications (clock : nat → Z)
    (x : BaseModel.t) (r : nat) (st : Persisted) (edits : list Edit) :
  nondecreasing clock →
  first_save clock x r = Return st →
  let states := stored st :: history clock edits st in
  BaseModel.created_at (stored st) = Some (clock r)
  ∧ BaseModel.updated_at (stored st) = Some (clock (S r))
  ∧ (clock r ≤ clock (S r))%Z
  ∧ (updated_at_left_to_save edits → StronglySorted updated_le states)
  ∧ (created_at_left_alone edits →
       Forall (λ y, BaseModel.created_at y
                    = BaseModel.created_at (stored st)) states)
  ∧ (created_at_left_alone edits → updated_at_left_to_save edits →
       Forall created_le_updated states).
Proof.
  intros Hclock Hfirst states. apply first_save_Return in Hfirst as ->.
  subst states. simpl.
  set (row := BaseModel.mk (BaseModel.is_active x) (Some (clock r))
                (Some (clock (S r)))).
  set (st := {| object := row; stored := row; reads := S (S r) |}).
  assert (Htick : (clock r ≤ clock (S r))%Z) by (apply Hclock; lia).
  assert (Hread : updated_at_left_to_save edits →
            Forall (λ y, ∃ r', BaseModel.updated_at y = Some (clock r')
                               ∧ (S r ≤ r')%nat) (history clock edits st)
            ∧ StronglySorted updated_le (history clock edits st)).
  { intros Hleft.
    apply (history_readings clock Hclock edits st (S r)); [done.. | simpl; lia]. }
  assert (Hcreated : created_at_left_alone edits →
            Forall (λ y, BaseModel.created_at y = Some (clock r))
              (history clock edits st)).
  { intros Halone. exact (history_created_at clock edits st Halone eq_refl). }
  split_and!; try done.
  - intros Hleft. destruct (Hread Hleft) as [Hall Hsort].
    constructor; [done|]. eapply Forall_impl; [exact Hall|]. simpl.
    intros z (r' & Hr' & Hle). exists (clock (S r)), (clock r').
    split_and!; [done..|]. by apply Hclock.
  - intros Halone. constructor; [done|]. by apply Hcreated.
  - intros Halone Hleft. destruct (Hread Hleft) as [Hall _].
    specialize (Hcreated Halone). constructor.
    + exists (clock r), (clock (S r)). done.
    + apply Forall_forall. intros z Hz.
      rewrite Forall_forall in Hall, Hcreated.
      destruct (Hall z Hz) as (r' & Hr' & Hle).
      exists (clock r), (clock r'). split_and!; [by apply Hcreated | done |].
      apply Hclock. lia.
Qed.

Lemma timestamps_through_modifications_witness :
  StronglySorted updated_le
    (BaseModel.mk (Some true) (Some 0%Z) (Some 1%Z)
     :: history Z.of_nat
          [ plain_edit 3 false;
            {| via := instance_save; wait := 0; refetch := true;
               assign_is_active := None;
               assign_created_at := Some (Some 999%Z);
               assign_updated_at := Some (Some (-5)%Z);
               update_fields := Some [is_active_field; created_at_field] |};
            {| via := queryset_update; wait := 1; refetch := false;
               assign_is_active := Some (Some true);
               assign_created_at := None; assign_updated_at := None;
               update_fields := None |} ]
          {| object := BaseModel.mk (Some true) (Some 0%Z) (Some 1%Z);
             stored := BaseModel.mk (Some true) (Some 0%Z) (Some 1%Z);
             reads := 2 |}).
Proof.
  apply (timestamps_through_modifications Z.of_nat (BaseModel.new true) 0
           {| object := BaseModel.mk (Some true) (Some 0%Z) (Some 1%Z);
              stored := BaseModel.mk (Some true) (Some 0%Z) (Some 1%Z);
              reads := 2 |}
           [ plain_edit 3 false;
             {| via := instance_save; wait := 0; refetch := true;
                assign_is_active := None;
                assign_created_at := Some (Some 999%Z);
                assign_updated_at := Some (Some (-5)%Z);
                update_fields := Some [is_active_field; created_at_field] |};
             {| via := queryset_update; wait := 1; refetch := false;
                assign_is_active := Some (Some true);
                assign_created_at := None; assign_updated_at := None;
                update_fields := None |} ]).
  - intros i j Hij. lia.
  - reflexivity.
  - repeat constructor; simpl; try done.
Defined.
(** * Further properties *)

(** ** What a deletion removes, and what it leaves *)

Lemma is_Some_remove {R : Type} (gone : gset nat) (tbl : gmap nat R) (k : nat) :
  is_Some (remove gone tbl !! k) ↔ is_Some (tbl !! k) ∧ k ∉ gone.
Proof.
  destruct (decide (k ∈ gone)) as [Hin|Hout].
  - rewrite lookup_remove_in by done. split; [by intros [? [=]] | tauto].
  - rewrite lookup_remove_out by done. tauto.
Qed.

(** After a collector has run, the rows present are those that were
    present and not collected. *)
Lemma execute_present (c : Collector) (db : Db) (r : Ref) :
  present (execute c db) r ↔ present db r ∧ ¬ collected c r.
Proof.
  destruct r; unfold present, collected, execute; project;
    rewrite is_Some_remove, ?nulled_by_dom; done.
Qed.

Lemma owned_trans db root mid r :
  owned db root mid → owned db mid r → owned db root r.
Proof.
  intros Hm Hr. induction Hr as [|parent child _ IH Hc]; [done|].
  by eapply owned_step.
Qed.

(** Unfolding the [on_delete] policy of every foreign key. *)
Ltac policies :=
  unfold Case.victim_on_delete, Location.case_on_delete,
    Suspect.case_on_delete, Motive.suspect_on_delete,
    Testimony.suspect_on_delete, Clue.case_on_delete,
    Clue.location_on_delete, Clue.related_suspect_on_delete,
    Evidence.case_on_delete, Evidence.obtained_from_on_delete,
    Evidence.related_suspect_on_delete, Message.case_on_delete,
    Message.related_suspect_on_delete, CallRecord.case_on_delete,
    CallRecord.related_suspect_on_delete in *;
  cbn [cascade_of nulled_by] in *.

(** Whatever is collected is owned, through cascading references, by a
    row the deletion started from. *)
Lemma collected_owned db vs cs ls ss r :
  collected (collect db vs cs ls ss) r →
  ∃ root, is_root vs cs ls ss root ∧ owned db root r.
Proof.
  assert (Hcase : ∀ k, k ∈ del_cases (collect db vs cs ls ss) →
            ∃ root, is_root vs cs ls ss root ∧ owned db root (a_case k)).
  { intros k. simpl. policies. rewrite elem_of_union, elem_of_referrers.
    intros [Hk | (x & Hx & Hp)].
    - exists (a_case k). split; [done | constructor].
    - unfold points_into in Hp. destruct (Case.victim x) as [v|] eqn:Hv; [|done].
      exists (a_victim v). split; [done|].
      eapply owned_step; [constructor | by eapply Case_victim]. }
  assert (Hloc : ∀ k, k ∈ del_locations (collect db vs cs ls ss) →
            ∃ root, is_root vs cs ls ss root ∧ owned db root (a_location k)).
  { intros k. simpl. policies. rewrite elem_of_union, elem_of_referrers.
    intros [Hk | (x & Hx & Hp)].
    - exists (a_location k). split; [done | constructor].
    - unfold points_into in Hp. simpl in Hp.
      destruct (Hcase _ Hp) as (root & Hroot & Ho). exists root.
      split; [done|]. eapply owned_step; [done | by constructor]. }
  assert (Hsus : ∀ k, k ∈ del_suspects (collect db vs cs ls ss) →
            ∃ root, is_root vs cs ls ss root ∧ owned db root (a_suspect k)).
  { intros k. simpl. policies. rewrite elem_of_union, elem_of_referrers.
    intros [Hk | (x & Hx & Hp)].
    - exists (a_suspect k). split; [done | constructor].
    - unfold points_into in Hp. simpl in Hp.
      destruct (Hcase _ Hp) as (root & Hroot & Ho). exists root.
      split; [done|]. eapply owned_step; [done | by constructor]. }
  destruct r as [k|k|k|k|k|k|k|k|k|k]; intros Hc.
  - exists (a_victim k). split; [done | constructor].
  - by apply Hcase.
  - by apply Hloc.
  - by apply Hsus.
  - simpl in Hc. policies. apply elem_of_referrers in Hc as (x & Hx & Hp).
    unfold points_into in Hp. simpl in Hp.
    destruct (Hsus _ Hp) as (root & Hroot & Ho). exists root.
    split; [done|]. eapply owned_step; [done | by constructor].
  - simpl in Hc. policies. apply elem_of_referrers in Hc as (x & Hx & Hp).
    unfold points_into in Hp. simpl in Hp.
    destruct (Hsus _ Hp) as (root & Hroot & Ho). exists root.
    split; [done|]. eapply owned_step; [done | by constructor].
  - simpl in Hc. policies. rewrite !elem_of_union, !elem_of_referrers in Hc.
    destruct Hc as [[(x & Hx & Hp) | (x & Hx & Hp)] | Hc]; [| |set_solver];
      unfold points_into in Hp; simpl in Hp.
    + destruct (Hcase _ Hp) as (root & Hroot & Ho). exists root.
      split; [done|]. eapply owned_step; [done | by apply Clue_case].
    + destruct (Hloc _ Hp) as (root & Hroot & Ho). exists root.
      split; [done|]. eapply owned_step; [done | by apply Clue_location].
  - simpl in Hc. policies. rewrite !elem_of_union, !elem_of_referrers in Hc.
    destruct Hc as [[(x & Hx & Hp) | Hc] | Hc]; [|set_solver..];
      unfold points_into in Hp; simpl in Hp.
    destruct (Hcase _ Hp) as (root & Hroot & Ho). exists root.
    split; [done|]. eapply owned_step; [done | by constructor].
  - simpl in Hc. policies. rewrite !elem_of_union, !elem_of_referrers in Hc.
    destruct Hc as [(x & Hx & Hp) | Hc]; [|set_solver];
      unfold points_into in Hp; simpl in Hp.
    destruct (Hcase _ Hp) as (root & Hroot & Ho). exists root.
    split; [done|]. eapply owned_step; [done | by constructor].
  - simpl in Hc. policies. rewrite !elem_of_union, !elem_of_referrers in Hc.
    destruct Hc as [(x & Hx & Hp) | Hc]; [|set_solver];
      unfold points_into in Hp; simpl in Hp.
    destruct (Hcase _ Hp) as (root & Hroot & Ho). exists root.
    split; [done|]. eapply owned_step; [done | by constructor].
Qed.

Lemma root_collected db vs cs ls ss root :
  is_root vs cs ls ss root → collected (collect db vs cs ls ss) root.
Proof. destruct root; simpl; try done; set_solver. Qed.

Lemma execute_collect_present db vs cs ls ss r :
  present (execute (collect db vs cs ls ss) db) r
  ↔ present db r ∧ ¬ ∃ root, is_root vs cs ls ss root ∧ owned db root r.
Proof.
  rewrite execute_present. split; intros [Hp Hn]; (split; [done|]).
  - intros (root & Hroot & Ho). apply Hn.
    by apply (owned_collected _ _ _ _ _ root); [apply root_collected|].
  - intros Hc. apply Hn. by apply collected_owned.
Qed.

Lemma remove_empty {R : Type} (tbl : gmap nat R) : remove ∅ tbl = tbl.
Proof. apply map_eq. intros k. apply lookup_remove_empty. Qed.

Lemma remove_singleton {R : Type} (pk : nat) (tbl : gmap nat R) :
  remove {[pk]} tbl = delete pk tbl.
Proof.
  apply map_eq. intros k. destruct (decide (k = pk)) as [->|Hne].
  - rewrite lookup_delete_eq. apply lookup_remove_in. set_solver.
  - rewrite lookup_delete_ne by done. apply lookup_remove_out. set_solver.
Qed.

(** X1: deleting a Case removes exactly the rows it owns through cascading
    references: a row is present afterwards if and only if it was present
    and is not owned by the Case.  No Victim is ever removed. *)
Theorem delete_case_removes_exactly_the_owned (db : Db) (pk : nat) :
  (∀ r, present (delete_case pk db) r
        ↔ present db r ∧ ¬ owned db (a_case pk) r)
  ∧ victims (delete_case pk db) = victims db.
Proof.
  split.
  - intros r. unfold delete_case. rewrite execute_collect_present.
    split; intros [Hp Hn]; (split; [done|]).
    + intros Ho. apply Hn. exists (a_case pk). split; [|done].
      simpl. set_solver.
    + intros (root & Hroot & Ho). apply Hn.
      destruct root; simpl in Hroot; try done; set_solver.
  - unfold delete_case, execute, collect. project. apply remove_empty.
Qed.

Lemma delete_case_removes_exactly_the_owned_witness :
  present (delete_case 0 second_db) (a_victim 0)
  ∧ present (delete_case 0 second_db) (a_clue 1)
  ∧ ¬ owned second_db (a_case 0) (a_clue 1)
  ∧ ¬ present (delete_case 0 second_db) (a_clue 2).
Proof.
  destruct (delete_case_removes_exactly_the_owned second_db 0)
    as [Hiff Hvictims].
  assert (Hclue : present (delete_case 0 second_db) (a_clue 1))
    by (eexists; vm_compute; reflexivity).
  split_and!.
  - unfold present. rewrite Hvictims. eexists. vm_compute. reflexivity.
  - exact Hclue.
  - apply (Hiff (a_clue 1)). exact Hclue.
  - intros Hp. apply (Hiff (a_clue 2)) in Hp as [_ Hn]. apply Hn.
    apply (owned_step _ _ (a_location 0)).
    + apply (owned_step _ _ (a_case 0)); [apply owned_root|].
      apply (Location_case second_db 0
               (Location.mk sample_base 0 "Cellar" None true)).
      reflexivity.
    + apply (Clue_location second_db 2
               (Clue.mk sample_base 1 0 None 6%Z None)).
      reflexivity.
Defined.

(** X2: deleting a Victim removes exactly the rows it owns through
    cascading references, its Case and everything under that Case: a row
    is present afterwards if and only if it was present and is not owned
    by the Victim. *)
Theorem delete_victim_removes_exactly_the_owned (db : Db) (pk : nat) (r : Ref) :
  present (delete_victim pk db) r
  ↔ present db r ∧ ¬ owned db (a_victim pk) r.
Proof.
  unfold delete_victim. rewrite execute_collect_present.
  split; intros [Hp Hn]; (split; [done|]).
  - intros Ho. apply Hn. exists (a_victim pk). split; [|done].
    simpl. set_solver.
  - intros (root & Hroot & Ho). apply Hn.
    destruct root; simpl in Hroot; try done; set_solver.
Qed.

Lemma delete_victim_removes_exactly_the_owned_witness :
  ¬ present (delete_victim 0 second_db) (a_case 0)
  ∧ ¬ owned second_db (a_victim 0) (a_case 1).
Proof.
  split.
  - intros Hp.
    apply (delete_victim_removes_exactly_the_owned second_db 0) in Hp
      as [_ Hn].
    apply Hn. apply (owned_step _ _ (a_victim 0)); [apply owned_root|].
    apply (Case_victim second_db 0
             (Case.mk sample_base "The manor" None (Some 0)) 0);
      reflexivity.
  - apply (delete_victim_removes_exactly_the_owned second_db 0 (a_case 1)).
    eexists. vm_compute. reflexivity.
Defined.

(** X3: deleting a Suspect removes that Suspect, its Motives and its
    Testimonies, and changes nothing else: the Victim, Case and Location
    tables are as before, and a Clue, Evidence, Message or CallRecord
    whose [related_suspect] does not reference the Suspect is the row it
    was. *)
Theorem delete_suspect_touches_nothing_else (db : Db) (pk : nat) :
  victims (delete_suspect pk db) = victims db
  ∧ cases (delete_suspect pk db) = cases db
  ∧ locations (delete_suspect pk db) = locations db
  ∧ suspects (delete_suspect pk db) = delete pk (suspects db)
  ∧ (∀ k x, motives db !! k = Some x →
       motives (delete_suspect pk db) !! k =
         if decide (Motive.suspect x = pk) then None else Some x)
  ∧ (∀ k x, testimonies db !! k = Some x →
       testimonies (delete_suspect pk db) !! k =
         if decide (Testimony.suspect x = pk) then None else Some x)
  ∧ (∀ k x, clues db !! k = Some x → Clue.related_suspect x ≠ Some pk →
       clues (delete_suspect pk db) !! k = Some x)
  ∧ (∀ k x, evidences db !! k = Some x →
       Evidence.related_suspect x ≠ Some pk →
       evidences (delete_suspect pk db) !! k = Some x)
  ∧ (∀ k x, messages db !! k = Some x →
       Message.related_suspect x ≠ Some pk →
       messages (delete_suspect pk db) !! k = Some x)
  ∧ (∀ k x, calls db !! k = Some x →
       CallRecord.related_suspect x ≠ Some pk →
       calls (delete_suspect pk db) !! k = Some x).
Proof.
  unfold delete_suspect. rewrite collect_suspect. unfold execute. project.
  rewrite !remove_empty, !nulled_by_empty, remove_singleton.
  assert (Hmiss : ∀ (R : Type) (fk : R → option nat) (x : R),
            fk x ≠ Some pk → ¬ points_into fk {[pk]} x).
  { intros R fk x Hne. unfold points_into.
    destruct (fk x) as [v|]; [set_solver | tauto]. }
  split_and!; try reflexivity.
  - intros k x Hk. case_decide as Hs.
    + apply lookup_remove_in, elem_of_referrers. exists x. split; [done|].
      unfold points_into. simpl. set_solver.
    + rewrite lookup_remove_out; [done|]. rewrite elem_of_referrers.
      intros (y & Hy & Hp). rewrite Hk in Hy. injection Hy as <-.
      unfold points_into in Hp. simpl in Hp. set_solver.
  - intros k x Hk. case_decide as Hs.
    + apply lookup_remove_in, elem_of_referrers. exists x. split; [done|].
      unfold points_into. simpl. set_solver.
    + rewrite lookup_remove_out; [done|]. rewrite elem_of_referrers.
      intros (y & Hy & Hp). rewrite Hk in Hy. injection Hy as <-.
      unfold points_into in Hp. simpl in Hp. set_solver.
  - intros k x Hk Hne. apply lookup_set_null_miss; auto.
  - intros k x Hk Hne. apply lookup_set_null_miss; auto.
  - intros k x Hk Hne. apply lookup_set_null_miss; auto.
  - intros k x Hk Hne. apply lookup_set_null_miss; auto.
Qed.

Lemma delete_suspect_touches_nothing_else_witness :
  motives (delete_suspect 0 second_db) !! 0 = None
  ∧ motives (delete_suspect 0 second_db) !! 1
    = Some (Motive.mk sample_base 1 (Some "Debt"))
  ∧ calls (delete_suspect 0 second_db) !! 0
    = Some (CallRecord.mk sample_base 1 (Some "Bram") None 10%Z None
              (Some 1))
  ∧ cases (delete_suspect 0 second_db) = cases second_db.
Proof.
  destruct (delete_suspect_touches_nothing_else second_db 0)
    as (_ & Hcases & _ & _ & Hm & _ & _ & _ & _ & Hcalls).
  split_and!.
  - apply (Hm 0 motive_without_description). reflexivity.
  - apply (Hm 1 (Motive.mk sample_base 1 (Some "Debt"))). reflexivity.
  - apply Hcalls; [reflexivity | discriminate].
  - exact Hcases.
Defined.

(** X4: deleting a Location removes that Location and the Clues whose
    [location] references it, and changes nothing else: seven tables are
    as before, and an Evidence whose [obtained_from] does not reference
    the Location is the row it was. *)
Theorem delete_location_touches_nothing_else (db : Db) (pk : nat) :
  victims (delete_location pk db) = victims db
  ∧ cases (delete_location pk db) = cases db
  ∧ suspects (delete_location pk db) = suspects db
  ∧ motives (delete_location pk db) = motives db
  ∧ testimonies (delete_location pk db) = testimonies db
  ∧ messages (delete_location pk db) = messages db
  ∧ calls (delete_location pk db) = calls db
  ∧ locations (delete_location pk db) = delete pk (locations db)
  ∧ (∀ k x, clues db !! k = Some x →
       clues (delete_location pk db) !! k =
         if decide (Clue.location x = pk) then None else Some x)
  ∧ (∀ k x, evidences db !! k = Some x →
       Evidence.obtained_from x ≠ Some pk →
       evidences (delete_location pk db) !! k = Some x).
Proof.
  unfold delete_location. rewrite collect_location. unfold execute. project.
  rewrite !remove_empty, !nulled_by_empty, remove_singleton.
  split_and!; try done.
  - intros k x Hk. case_decide as Hs.
    + apply lookup_remove_in, elem_of_referrers. exists x. split; [done|].
      unfold points_into. simpl. set_solver.
    + rewrite lookup_remove_out; [done|].
      rewrite elem_of_referrers.
      intros (y & Hy & Hp). rewrite Hk in Hy. injection Hy as <-.
      unfold points_into in Hp. simpl in Hp. set_solver.
  - intros k x Hk Hne. apply lookup_set_null_miss; [done|].
    unfold points_into. destruct (Evidence.obtained_from x); [|tauto].
    set_solver.
Qed.

Lemma delete_location_touches_nothing_else_witness :
  clues (delete_location 0 second_db) !! 2 = None
  ∧ clues (delete_location 0 second_db) !! 1
    = Some (Clue.mk sample_base 1 1 (Some "Rope") 5%Z (Some 0))
  ∧ suspects (delete_location 0 second_db) = suspects second_db.
Proof.
  destruct (delete_location_touches_nothing_else second_db 0)
    as (_ & _ & Hs & _ & _ & _ & _ & _ & Hc & _).
  split_and!.
  - apply (Hc 2 (Clue.mk sample_base 1 0 None 6%Z None)). reflexivity.
  - apply (Hc 1 (Clue.mk sample_base 1 1 (Some "Rope") 5%Z (Some 0))).
    reflexivity.
  - exact Hs.
Defined.

(** ** Referential integrity under deletion *)

Lemma lookup_remove_Some {R : Type} (gone : gset nat) (tbl : gmap nat R) k x :
  remove gone tbl !! k = Some x → (k ∉ gone) ∧ tbl !! k = Some x.
Proof.
  unfold remove. intros H. apply map_lookup_filter_Some in H as [Hk Hp].
  done.
Qed.

Lemma lookup_nulled_Some {R : Type} policy (fk : R → option nat) clear gone
    (tbl : gmap nat R) k x' :
  nulled_by policy fk clear gone tbl !! k = Some x' →
  ∃ x, tbl !! k = Some x
       ∧ ((x' = x ∧ (policy = SET_NULL → ¬ points_into fk gone x))
          ∨ (policy = SET_NULL ∧ x' = clear x)).
Proof.
  destruct policy; simpl.
  - intros H. exists x'. split; [done|]. left. done.
  - rewrite lookup_fmap. destruct (tbl !! k) as [x|]; simpl; [|done].
    intros [= <-]. exists x. split; [done|].
    case_decide; [right | left]; done.
Qed.

Lemma refers_within_kept {R T : Type} (fk : R → option nat)
    (tbl tbl' : gmap nat R) (target target' : gmap nat T) (gone : gset nat) :
  refers_within fk tbl target →
  (∀ v, is_Some (target !! v) → v ∉ gone → is_Some (target' !! v)) →
  (∀ k x', tbl' !! k = Some x' →
     fk x' = None
     ∨ ∃ x, tbl !! k = Some x ∧ fk x' = fk x ∧ ¬ points_into fk gone x) →
  refers_within fk tbl' target'.
Proof.
  intros Hin Hkept Hrows k x' Hk.
  destruct (Hrows k x' Hk) as [-> | (x & Hx & -> & Hp)]; [done|].
  specialize (Hin k x Hx). simpl in Hin. unfold points_into in Hp.
  destruct (fk x) as [v|]; [|done]. by apply Hkept.
Qed.

Lemma kept_after_remove {T : Type} (gone : gset nat) (tbl tbl' : gmap nat T) :
  (∀ v, is_Some (tbl' !! v) ↔ is_Some (tbl !! v)) →
  ∀ v, is_Some (tbl !! v) → v ∉ gone → is_Some (remove gone tbl' !! v).
Proof. intros Hdom v Hv Hout. rewrite is_Some_remove, Hdom. done. Qed.

Lemma in_referrers {R : Type} (fk : R → option nat) (gone : gset nat)
    (tbl : gmap nat R) k x :
  tbl !! k = Some x → points_into fk gone x → k ∈ referrers fk gone tbl.
Proof. intros. apply elem_of_referrers. eauto. Qed.


(** The rows a table holds after a run, one foreign key at a time. *)
Ltac project_all :=
  cbn [victims cases locations suspects motives testimonies clues evidences
       messages calls del_victims del_cases del_locations del_suspects
       del_motives del_testimonies del_clues del_evidences del_messages
       del_calls] in *.

Ltac unnull Hk :=
  repeat match type of Hk with
  | nulled_by _ _ _ _ _ !! _ = Some _ =>
      let x := fresh "x" in
      let Hc := fresh "Hc" in
      apply lookup_nulled_Some in Hk as (x & Hk & Hc)
  end.

Ltac kept_rows :=
  let k := fresh "k" in
  let x' := fresh "x'" in
  let Hk := fresh "Hk" in
  let Hout := fresh "Hout" in
  let Hp := fresh "Hp" in
  intros k x' Hk; apply lookup_remove_Some in Hk as [Hout Hk];
  unnull Hk; destruct_or?; destruct_and?; simplify_eq;
  first
    [ by left
    | right; eexists; split_and!; [eassumption | reflexivity |];
      first
        [ by auto
        | intros Hp; apply Hout; unfold collect in *; project_all;
          policies; rewrite ?elem_of_union;
          by eauto 8 using in_referrers ] ].

Ltac kept gone H :=
  eapply (refers_within_kept _ _ _ _ _ gone);
    [ exact H
    | apply kept_after_remove; intros; rewrite ?nulled_by_dom; done
    | kept_rows ].

(** Running a collection keeps every reference pointing to a row. *)
Lemma execute_collect_well_referenced db vs cs ls ss :
  well_referenced db →
  well_referenced (execute (collect db vs cs ls ss) db).
Proof.
  intros (H1 & H2 & H3 & H4 & H5 & H6 & H7 & H8 & H9 & H10 & H11 & H12
          & H13 & H14 & H15).
  unfold well_referenced, execute. project.
  split_and!.
  - kept (del_victims (collect db vs cs ls ss)) H1.
  - kept (del_cases (collect db vs cs ls ss)) H2.
  - kept (del_cases (collect db vs cs ls ss)) H3.
  - kept (del_suspects (collect db vs cs ls ss)) H4.
  - kept (del_suspects (collect db vs cs ls ss)) H5.
  - kept (del_cases (collect db vs cs ls ss)) H6.
  - kept (del_locations (collect db vs cs ls ss)) H7.
  - kept (del_suspects (collect db vs cs ls ss)) H8.
  - kept (del_cases (collect db vs cs ls ss)) H9.
  - kept (del_locations (collect db vs cs ls ss)) H10.
  - kept (del_suspects (collect db vs cs ls ss)) H11.
  - kept (del_cases (collect db vs cs ls ss)) H12.
  - kept (del_suspects (collect db vs cs ls ss)) H13.
  - kept (del_cases (collect db vs cs ls ss)) H14.
  - kept (del_suspects (collect db vs cs ls ss)) H15.
Qed.

(** X5: in a database where every reference points to a row, this is still
    so after deleting a Victim, a Case, a Location or a Suspect: a
    deletion leaves no dangling reference. *)
Theorem deletion_keeps_references (db : Db) (pk : nat) :
  well_referenced db →
  well_referenced (delete_victim pk db)
  ∧ well_referenced (delete_case pk db)
  ∧ well_referenced (delete_location pk db)
  ∧ well_referenced (delete_suspect pk db).
Proof.
  intros Hdb. split_and!; by apply execute_collect_well_referenced.
Qed.

Lemma deletion_keeps_references_witness :
  well_referenced second_db
  ∧ well_referenced (delete_case 0 second_db)
  ∧ well_referenced (delete_suspect 0 second_db).
Proof.
  assert (Hdb : well_referenced second_db).
  { unfold well_referenced. split_and!;
      (refine (bool_decide_unpack _ _); vm_compute; exact I). }
  destruct (deletion_keeps_references second_db 0 Hdb) as (_ & Hc & _ & Hs).
  split_and!; assumption.
Defined.

(** ** Rendering stored rows *)

Lemma refers_within_lookup {R T : Type} (fk : R → option nat)
    (tbl : gmap nat R) (target : gmap nat T) k x v :
  refers_within fk tbl target → tbl !! k = Some x → fk x = Some v →
  is_Some (target !! v).
Proof. intros H Hk Hv. specialize (H k x Hk). simpl in H. by rewrite Hv in H. Qed.

(** X6: in a database where every reference points to a row, the rendering
    of every stored Location, Suspect, Testimony, Clue, Evidence and
    Message returns, whatever optional fields are absent; that of a stored
    Motive returns exactly when its description is present. *)
Theorem stored_rows_render (format_datetime : Z → string) (db : Db) :
  well_referenced db →
  (∀ k x, locations db !! k = Some x → returned (Location_str db x))
  ∧ (∀ k x, suspects db !! k = Some x → returned (Suspect_str db x))
  ∧ (∀ k x, testimonies db !! k = Some x →
       returned (Testimony_str format_datetime db x))
  ∧ (∀ k x, clues db !! k = Some x → returned (Clue_str db x))
  ∧ (∀ k x, evidences db !! k = Some x → returned (Evidence_str db x))
  ∧ (∀ k x, messages db !! k = Some x → returned (Message_str db x))
  ∧ (∀ k x, motives db !! k = Some x →
       (returned (Motive_str db x)
        ↔ is_Some (Motive.motive_description x))).
Proof.
  intros (_ & H2 & H3 & H4 & H5 & H6 & H7 & _ & H9 & _ & _ & H12 & _).
  unfold returned. split_and!; intros k x Hk.
  - destruct (refers_within_lookup _ _ _ _ _ _ H2 Hk eq_refl) as [c Hc].
    unfold Location_str. rewrite Hc. eauto.
  - destruct (refers_within_lookup _ _ _ _ _ _ H3 Hk eq_refl) as [c Hc].
    unfold Suspect_str. rewrite Hc. eauto.
  - destruct (refers_within_lookup _ _ _ _ _ _ H5 Hk eq_refl) as [s Hs].
    unfold Testimony_str. rewrite Hs. eauto.
  - destruct (refers_within_lookup _ _ _ _ _ _ H6 Hk eq_refl) as [c Hc].
    destruct (refers_within_lookup _ _ _ _ _ _ H7 Hk eq_refl) as [l Hl].
    unfold Clue_str. rewrite Hc, Hl. eauto.
  - destruct (refers_within_lookup _ _ _ _ _ _ H9 Hk eq_refl) as [c Hc].
    unfold Evidence_str. rewrite Hc. eauto.
  - destruct (refers_within_lookup _ _ _ _ _ _ H12 Hk eq_refl) as [c Hc].
    unfold Message_str. rewrite Hc. eauto.
  - destruct (refers_within_lookup _ _ _ _ _ _ H4 Hk eq_refl) as [s Hs].
    unfold Motive_str. rewrite Hs.
    destruct (Motive.motive_description x) as [d|]; split;
      first [ by eauto | by intros [? [=]] ].
Qed.

Lemma stored_rows_render_witness :
  returned (Clue_str second_db (Clue.mk sample_base 1 0 None 6%Z None))
  ∧ returned (Message_str second_db
                (Message.mk sample_base 1 None (Some "Bram") 9%Z "Tonight"
                   (Some 0)))
  ∧ ¬ returned (Motive_str second_db motive_without_description).
Proof.
  assert (Hdb : well_referenced second_db).
  { unfold well_referenced. split_and!;
      (refine (bool_decide_unpack _ _); vm_compute; exact I). }
  destruct (stored_rows_render sample_format_datetime second_db Hdb)
    as (_ & _ & _ & Hc & _ & Hm & Hmot).
  split_and!.
  - apply (Hc 2). reflexivity.
  - apply (Hm 0). reflexivity.
  - intros Hr. apply (Hmot 0 motive_without_description eq_refl) in Hr.
    destruct Hr as [d Hd]. discriminate Hd.
Defined.

Lemma length_append (s t : string) :
  String.length (s +:+ t) = (String.length s + String.length t)%nat.
Proof.
  induction s as [|c s IH]; [done|].
  change (S (String.length (s +:+ t))
          = S (String.length s + String.length t)%nat).
  by rewrite IH.
Qed.

Lemma slice_to_all (n : nat) (s : string) :
  (String.length s ≤ n)%nat → Str.slice_to n s = s.
Proof.
  unfold Str.slice_to. revert s.
  induction n as [|n IH]; intros [|c s]; simpl; try done; [lia|].
  intros H. rewrite IH; [done | lia].
Qed.

(** X7: whenever a Motive is rendered, the text is the prefix, the
    suspect's name and a beginning of the description that is fifty
    characters long, or the whole description when that is shorter; the
    rendering is never longer than the name plus 63 characters. *)
Theorem Motive_str_shows_at_most_fifty (db : Db) (self : Motive.t) (s : string) :
  Motive_str db self = Return s →
  ∃ suspect d shown rest,
    suspects db !! Motive.suspect self = Some suspect
    ∧ Motive.motive_description self = Some d
    ∧ s = "Motive for " +:+ Suspect.name suspect +:+ ": " +:+ shown
    ∧ d = shown +:+ rest
    ∧ String.length shown = Nat.min 50 (String.length d)
    ∧ ((String.length d ≤ 50)%nat → shown = d)
    ∧ String.length s = (13 + String.length (Suspect.name suspect)
                         + Nat.min 50 (String.length d))%nat.
Proof.
  unfold Motive_str.
  destruct (suspects db !! Motive.suspect self) as [suspect|]; [|done].
  destruct (Motive.motive_description self) as [d|]; [|done].
  intros [= <-]. destruct (slice_to_prefix 50 d) as [rest Hrest].
  exists suspect, d, (Str.slice_to 50 d), rest.
  split_and!; try done.
  - apply slice_to_length.
  - apply slice_to_all.
  - rewrite !length_append, slice_to_length. simpl. lia.
Qed.

Lemma Motive_str_shows_at_most_fifty_witness :
  ∃ shown rest,
    Motive_str sample_db motive_with_description
      = Return ("Motive for Ada: " +:+ shown)
    ∧ "Stood to inherit the manor and every last thing that was in it"
      = shown +:+ rest
    ∧ String.length shown = 50.
Proof.
  destruct (Motive_str_shows_at_most_fifty sample_db motive_with_description
              ("Motive for Ada: "
               +:+ "Stood to inherit the manor and every last thing th")
              eq_refl)
    as (suspect & d & shown & rest & Hs & Hd & Htext & Hsplit & Hlen & _).
  vm_compute in Hs. injection Hs as <-.
  vm_compute in Hd. injection Hd as <-.
  exists "Stood to inherit the manor and every last thing th",
    "at was in it".
  split_and!; reflexivity.
Defined.

(** ** The user table under account creation *)

Section AccountLemmas.

Variable make_password : option string → string.
Variable next_id : UserDb → nat.
Variable enf : bool.

(** What a successful [save] leaves behind. *)
Lemma save_returns (u : User.t) (db : UserDb) (row : User.t) (db' : UserDb) :
  save next_id enf u db = (Return row, db') →
  ∃ k, (User.id u = Some k
        ∨ User.id u = None ∧ k = next_id db ∧ k ∉ dom (users db))
       ∧ accepted next_id enf u db
       ∧ row = User.set_id k u
       ∧ users db' = (<[k := row]> (users db))
       ∧ journal db' = (journal db ++ [row])%list.
Proof.
  destruct (save_cases next_id enf u db)
    as [(Hok & k & Hk & ->) | (_ & e & -> & _)]; [|discriminate].
  intros [= <- <-]. exists k. done.
Qed.

Lemma save_raises (u : User.t) (db : UserDb) (e : Exception) (db' : UserDb) :
  save next_id enf u db = (Raise e, db') →
  db' = db ∧ (e = IntegrityError ∨ e = DataError).
Proof.
  destruct (save_cases next_id enf u db)
    as [(_ & k & _ & ->) | (_ & x & -> & Hx)]; [discriminate|].
  by intros [= <- <-].
Qed.

Lemma save_keeps_invariants (u : User.t) (db : UserDb) o db' :
  save next_id enf u db = (o, db') →
  unique_emails (users db) → ids_match_keys (users db) →
  unique_emails (users db') ∧ ids_match_keys (users db').
Proof.
  intros Hsave Huniq Hids. destruct o as [row|e].
  - apply save_returns in Hsave as (k & Hk & (_ & _ & Hfree & _) & -> & -> & _).
    split.
    + intros k1 k2 r1 r2 H1 H2 He.
      destruct (decide (k1 = k)) as [->|Hn1], (decide (k2 = k)) as [->|Hn2];
        [done | | |].
      * rewrite lookup_insert_eq in H1. rewrite lookup_insert_ne in H2 by done.
        injection H1 as <-. simpl in He.
        specialize (Hfree k2 r2 H2 (eq_sym He)).
        destruct Hk as [Hk | [Hk _]]; congruence.
      * rewrite lookup_insert_eq in H2. rewrite lookup_insert_ne in H1 by done.
        injection H2 as <-. simpl in He.
        specialize (Hfree k1 r1 H1 He).
        destruct Hk as [Hk | [Hk _]]; congruence.
      * rewrite lookup_insert_ne in H1, H2 by done. by eapply Huniq.
    + intros k' r. destruct (decide (k' = k)) as [->|Hne].
      * rewrite lookup_insert_eq. by intros [= <-].
      * rewrite lookup_insert_ne by done. apply Hids.
  - apply save_raises in Hsave as [-> _]. done.
Qed.

End AccountLemmas.

(** X8: creating a user or a superuser, whether it succeeds or fails, keeps
    the user table well formed: no two accounts hold the same email, and
    every row carries the key it is stored under. *)
Theorem account_creation_keeps_table_invariants
    (make_password : option string → string) (next_id : UserDb → nat)
    (enf : bool) (email password : option string) (xf : extra_fields)
    (db : UserDb) :
  unique_emails (users db) → ids_match_keys (users db) →
  let after_user :=
    users (snd (create_user make_password next_id enf email password xf db))
  in
  let after_superuser :=
    users (snd (create_superuser make_password next_id enf email password
                  db)) in
  unique_emails after_user ∧ ids_match_keys after_user
  ∧ unique_emails after_superuser ∧ ids_match_keys after_superuser.
Proof.
  intros Huniq Hids.
  assert (Huser : ∀ xf',
            let db1 := snd (create_user make_password next_id enf email
                              password xf' db)
            in unique_emails (users db1) ∧ ids_match_keys (users db1)).
  { intros xf'.
    destruct (create_user_cases make_password next_id enf email password xf'
                db)
      as [(_ & msg & ->)
         | [(_ & _ & ? & _ & _ & ->) | (_ & _ & u & _ & _ & _ & ->)]];
      [done | done |].
    simpl. eapply save_keeps_invariants; [apply surjective_pairing|done..]. }
  simpl. split; [apply Huser|]. split; [apply Huser|].
  specialize (Huser no_extra_fields). simpl in Huser. unfold create_superuser.
  destruct (create_user make_password next_id enf email password
              no_extra_fields db) as [[u1|e] db1]; [|done].
  simpl in Huser. destruct Huser as [Hu1 Hi1].
  eapply save_keeps_invariants; [apply surjective_pairing|done..].
Qed.

Lemma account_creation_keeps_table_invariants_witness :
  unique_emails
    (users (snd (create_superuser sample_hasher sample_next_id true
                   (Some "Root@Example.ORG") (Some "secret") one_user_db))).
Proof.
  apply (account_creation_keeps_table_invariants sample_hasher sample_next_id
           true (Some "Root@Example.ORG") (Some "secret") no_extra_fields
           one_user_db).
  - apply (account_creation_keeps_table_invariants sample_hasher
             sample_next_id false (Some "Jane@EXAMPLE.com") (Some "secret")
             no_extra_fields empty_db).
    + intros k1 k2 r1 r2 H1. discriminate H1.
    + intros k r H. discriminate H.
  - apply (account_creation_keeps_table_invariants sample_hasher
             sample_next_id false (Some "Jane@EXAMPLE.com") (Some "secret")
             no_extra_fields empty_db).
    + intros k1 k2 r1 r2 H1. discriminate H1.
    + intros k r H. discriminate H.
Defined.

(** X9: superuser-creation never touches another account, and user-creation
    touches none but the one whose primary key is passed in the extra
    fields: every row stored under any other key is afterwards the row it
    was.  When the key of an existing account is passed and the user is
    returned, that account's row is replaced by the new user. *)
Theorem account_creation_leaves_other_accounts
    (make_password : option string → string) (next_id : UserDb → nat)
    (enf : bool) (email password : option string) (xf : extra_fields)
    (db : UserDb) (k : nat) (row : User.t) :
  users db !! k = Some row →
  (xf_id xf ≠ Some (Some k) →
   users (snd (create_user make_password next_id enf email password xf db))
     !! k = Some row)
  ∧ users (snd (create_superuser make_password next_id enf email password
                  db)) !! k = Some row
  ∧ (xf_id xf = Some (Some k) →
     ∀ user db',
       create_user make_password next_id enf email password xf db
         = (Return user, db') →
       User.id user = Some k ∧ users db' !! k = Some user).
Proof.
  intros Hrow.
  assert (Hfresh : ∀ k', k' ∉ dom (users db) → k' ≠ k).
  { intros k' Hk' ->. apply Hk'. apply elem_of_dom. eauto. }
  split_and!.
  - intros Hother.
    destruct (create_user_cases make_password next_id enf email password xf
                db)
      as [(_ & msg & ->)
         | [(_ & _ & ? & _ & _ & ->) | (_ & _ & u & _ & _ & Hid & ->)]];
      [done | done |].
    set (u0 := set_password make_password password u).
    destruct (save_cases next_id enf u0 db)
      as [(_ & k' & Hk' & ->) | (_ & x & -> & _)]; [|done].
    simpl. rewrite lookup_insert_ne; [done|].
    destruct Hk' as [Hk' | (_ & -> & Hk')]; [|by apply Hfresh].
    intros ->. apply Hother. subst u0. simpl in Hk'. rewrite Hid in Hk'.
    by destruct (xf_id xf) as [[?|]|]; simplify_eq/=.
  - destruct (create_superuser_cases make_password next_id enf email password
                db)
      as [(e & _ & ->)
         | (u1 & db1 & k' & _ & _ & Hk' & Hdb1 & _ & _ & _ & ->)]; [done|].
    simpl. rewrite Hdb1, !lookup_insert_ne; [done | by apply Hfresh..].
  - intros Hkey user db' Hrun.
    destruct (create_user_cases make_password next_id enf email password xf
                db)
      as [(_ & msg & Hr)
         | [(_ & _ & ? & _ & _ & Hr) | (_ & _ & u & _ & _ & Hid & Hr)]];
      rewrite Hr in Hrun; [discriminate | discriminate |].
    apply save_returns in Hrun as (k' & Hk' & _ & -> & -> & _).
    simpl in Hk'. rewrite Hid, Hkey in Hk'. simpl in Hk'.
    destruct Hk' as [[= <-] | [[=] _]].
    split; [done | apply lookup_insert_eq].
Qed.

Lemma account_creation_leaves_other_accounts_witness :
  users (snd (create_superuser sample_hasher sample_next_id false
                (Some "Root@Example.ORG") (Some "secret") one_user_db)) !! 1
  = Some jane
  ∧ ∃ user,
      users (snd (create_user sample_hasher sample_next_id false
                    (Some "Bram@Quay.NET") None
                    {| xf_id := Some (Some 1); xf_last_login := None;
                       xf_is_superuser := None; xf_name := None;
                       xf_is_active := None; xf_is_staff := None;
                       xf_other := [] |} one_user_db)) !! 1 = Some user
      ∧ User.email user = "Bram@quay.net".
Proof.
  split.
  - destruct (account_creation_leaves_other_accounts sample_hasher
                sample_next_id false (Some "Root@Example.ORG")
                (Some "secret") no_extra_fields one_user_db 1 jane eq_refl)
      as (_ & Hsame & _).
    exact Hsame.
  - destruct (account_creation_leaves_other_accounts sample_hasher
                sample_next_id false (Some "Bram@Quay.NET") None
                {| xf_id := Some (Some 1); xf_last_login := None;
                   xf_is_superuser := None; xf_name := None;
                   xf_is_active := None; xf_is_staff := None;
                   xf_other := [] |} one_user_db 1 jane eq_refl)
      as (_ & _ & Hreplaced).
    exists (User.mk (Some 1) "!unusable" None (Some false) "Bram@quay.net"
              (Some "") (Some true) (Some false)).
    split; [|reflexivity].
    apply (Hreplaced eq_refl); reflexivity.
Defined.

(** X10: superuser-creation raises an exception exactly when user-creation
    with the same email and password (and no extra fields) raises it: the
    second save never fails. *)
Theorem create_superuser_fails_as_create_user
    (make_password : option string → string) (next_id : UserDb → nat)
    (enf : bool) (email password : option string) (db : UserDb)
    (e : Exception) :
  fst (create_superuser make_password next_id enf email password db)
    = Raise e
  ↔ fst (create_user make_password next_id enf email password
           no_extra_fields db) = Raise e.
Proof.
  destruct (create_superuser_cases make_password next_id enf email password
              db)
    as [(e' & -> & ->)
       | (u1 & db1 & k & -> & _ & _ & _ & _ & _ & _ & ->)]; simpl.
  - done.
  - split; intros [=].
Qed.

Lemma create_superuser_fails_as_create_user_witness :
  fst (create_superuser sample_hasher sample_next_id false
         (Some "Jane@Example.COM") (Some "secret") one_user_db)
  = Raise IntegrityError.
Proof.
  apply (create_superuser_fails_as_create_user sample_hasher sample_next_id
           false (Some "Jane@Example.COM") (Some "secret") one_user_db
           IntegrityError).
  reflexivity.
Defined.



(** X12: the account user-creation returns carries the hashed credential
    and the normalised email; each of [name], [is_active], [is_staff],
    [is_superuser] and [last_login] is the value passed in the extra
    fields, or else the default (empty name, active, neither staff nor
    superuser, no last login), and none of the first four is [None]; it is
    stored under the key passed, or else under the key the database
    allocated, which was not in use. *)
Theorem create_user_sets_fields
    (make_password : option string → string) (next_id : UserDb → nat)
    (enf : bool) (email password : option string) (xf : extra_fields)
    (db db' : UserDb) (user : User.t) :
  create_user make_password next_id enf email password xf db
    = (Return user, db') →
  User.password user = make_password password
  ∧ User.email user = normalize_email email
  ∧ User.name user = default (Some "") (xf_name xf)
  ∧ User.is_active user = default (Some true) (xf_is_active xf)
  ∧ User.is_staff user = default (Some false) (xf_is_staff xf)
  ∧ User.is_superuser user = default (Some false) (xf_is_superuser xf)
  ∧ User.last_login user = default None (xf_last_login xf)
  ∧ is_Some (User.name user) ∧ is_Some (User.is_active user)
  ∧ is_Some (User.is_staff user) ∧ is_Some (User.is_superuser user)
  ∧ xf_other xf = []
  ∧ ∃ k, User.id user = Some k ∧ users db' !! k = Some user
         ∧ (xf_id xf = Some (Some k)
            ∨ k = next_id db ∧ k ∉ dom (users db)).
Proof.
  intros Hrun.
  destruct (create_user_cases make_password next_id enf email password xf db)
    as [(_ & msg & Hr)
       | [(_ & _ & ? & _ & _ & Hr)
         | (_ & Hother & u & Hmodel & _ & Hid & Hr)]];
    rewrite Hr in Hrun; [discriminate | discriminate |].
  apply save_returns in Hrun as (k & Hk & (_ & Hnull & _) & -> & -> & _).
  unfold model in Hmodel. rewrite Hother in Hmodel. injection Hmodel as <-.
  simpl in *. unfold not_null in Hnull. simpl in Hnull.
  destruct (default (Some false) (xf_is_superuser xf)),
    (default (Some "") (xf_name xf)), (default (Some true) (xf_is_active xf)),
    (default (Some false) (xf_is_staff xf)); try discriminate Hnull.
  split_and!; try done. exists k. split_and!; [done | apply lookup_insert_eq |].
  destruct Hk as [Hk | (_ & -> & Hfresh)]; [|by right].
  left. by destruct (xf_id xf) as [[?|]|]; simplify_eq/=.
Qed.

Lemma create_user_sets_fields_witness :
  ∃ user db',
    create_user sample_hasher sample_next_id true (Some "Bram@Quay.NET") None
      {| xf_id := None; xf_last_login := Some (Some 12%Z);
         xf_is_superuser := None; xf_name := Some (Some "Bram");
         xf_is_active := None; xf_is_staff := Some (Some true);
         xf_other := [] |} one_user_db
    = (Return user, db')
    ∧ User.password user = "!unusable"
    ∧ User.name user = Some "Bram"
    ∧ User.is_staff user = Some true
    ∧ User.last_login user = Some 12%Z
    ∧ User.id user = Some 2.
Proof.
  eexists _, _. split; [vm_compute; reflexivity|].
  edestruct (create_user_sets_fields sample_hasher sample_next_id true
               (Some "Bram@Quay.NET") None
               {| xf_id := None; xf_last_login := Some (Some 12%Z);
                  xf_is_superuser := None; xf_name := Some (Some "Bram");
                  xf_is_active := None; xf_is_staff := Some (Some true);
                  xf_other := [] |} one_user_db)
    as (Hp & _ & Hn & _ & Hs & _ & Hl & _); [vm_compute; reflexivity|].
  split_and!; try assumption. reflexivity.
Defined.

(** ** Timestamps on a clock that always advances *)

Section SteppingLemmas.

Variable clock : nat → Z.

(** One save of the object, by what it does to [updated_at] of the row. *)
Lemma save_writes_updated_at (e : Edit) (st : Persisted) :
  writes (update_fields e) updated_at_field = true →
  fst (save_object clock e st) = Return tt →
  ∃ r, BaseModel.updated_at (stored (snd (save_object clock e st)))
         = Some (clock r)
       ∧ (reads st ≤ r)%nat.
Proof.
  intros Hw. unfold save_object, pre_save_auto_now_add, pre_save_auto_now,
    timezone_now. rewrite Hw.
  destruct (writes (update_fields e) created_at_field),
    (writes (update_fields e) is_active_field); simpl;
    repeat case_bool_decide; simpl; try done;
    intros _; eexists; (split; [reflexivity | lia]).
Qed.

Lemma save_skips_updated_at (e : Edit) (st : Persisted) :
  writes (update_fields e) updated_at_field = false →
  BaseModel.updated_at (stored (snd (save_object clock e st)))
  = BaseModel.updated_at (stored st).
Proof.
  intros Hw. unfold save_object, pre_save_auto_now_add, pre_save_auto_now,
    timezone_now. rewrite Hw.
  destruct (writes (update_fields e) created_at_field),
    (writes (update_fields e) is_active_field); simpl;
    repeat case_bool_decide; simpl; done.
Qed.

Lemma modify_refused (e : Edit) (st : Persisted) :
  fst (modify clock e st) ≠ Return tt →
  stored (snd (modify clock e st)) = stored st.
Proof.
  unfold modify. destruct (via e).
  - unfold save_object, pre_save_auto_now_add, pre_save_auto_now,
      timezone_now.
    destruct (writes (update_fields e) created_at_field),
      (writes (update_fields e) updated_at_field),
      (writes (update_fields e) is_active_field); simpl;
      repeat case_bool_decide; simpl; done.
  - unfold update_columns.
    repeat case_bool_decide; simpl; done.
Qed.

(** After a series of modifications that leave [updated_at] to [save], the
    row carries in [updated_at] a reading of the clock taken before now. *)
Lemma run_reading (edits : list Edit) :
  ∀ (st : Persisted) (last : nat),
    updated_at_left_to_save edits →
    BaseModel.updated_at (stored st) = Some (clock last) →
    (last < reads st)%nat →
    ∃ last', BaseModel.updated_at (stored (run clock edits st))
               = Some (clock last')
             ∧ (last' < reads (run clock edits st))%nat.
Proof.
  induction edits as [|e edits IH]; intros st last Hleft Hu Hlt; simpl.
  - eauto.
  - apply Forall_cons in Hleft as [He Hleft].
    destruct (modify_updated_at clock e st He) as [Hreads Hcase].
    destruct Hcase as [Hsame | (r & Hr & Hle)].
    + apply (IH _ last); [done | by rewrite Hsame | lia].
    + apply (IH _ r); [done | done | lia].
Qed.

End SteppingLemmas.

(** X13: on a clock whose every reading is later than the one before,
    [updated_at] is strictly after [created_at] at creation.  After any
    series of modifications that leave [updated_at] to [save], a
    successful save of the object that writes [updated_at] (a plain
    [save()], or one whose [update_fields] names it) stores an
    [updated_at] strictly after the one the row had, and a save that does
    not write it leaves it as it was; a refused modification leaves the
    whole row as it was. *)
Theorem timestamps_on_an_increasing_clock (clock : nat → Z)
    (x : BaseModel.t) (r : nat) (st : Persisted) (edits : list Edit)
    (e : Edit) :
  increasing clock →
  first_save clock x r = Return st →
  updated_at_left_to_save edits →
  let before := run clock edits st in
  let after := snd (modify clock e before) in
  (∃ c u, BaseModel.created_at (stored st) = Some c
          ∧ BaseModel.updated_at (stored st) = Some u ∧ (c < u)%Z)
  ∧ (via e = instance_save →
     writes (update_fields e) updated_at_field = true →
     fst (modify clock e before) = Return tt →
     updated_lt (stored before) (stored after))
  ∧ (via e = instance_save →
     writes (update_fields e) updated_at_field = false →
     BaseModel.updated_at (stored after)
     = BaseModel.updated_at (stored before))
  ∧ (fst (modify clock e before) ≠ Return tt →
     stored after = stored before).
Proof.
  intros Hclock Hfirst Hleft before after.
  apply first_save_Return in Hfirst as ->.
  set (row := BaseModel.mk (BaseModel.is_active x) (Some (clock r))
                (Some (clock (S r)))) in *.
  set (st := {| object := row; stored := row; reads := S (S r) |}) in *.
  destruct (run_reading clock edits st (S r) Hleft) as (last & Hlast & Hlt);
    [done | simpl; lia |].
  fold before in Hlast, Hlt.
  split_and!.
  - exists (clock r), (clock (S r)). split_and!; [done..|].
    apply Hclock. lia.
  - intros Hvia Hw. subst after. unfold modify. rewrite Hvia. intros Hok.
    destruct (save_writes_updated_at clock e before Hw Hok)
      as (r' & Hr' & Hle).
    exists (clock last), (clock r'). split_and!; [done..|].
    apply Hclock. lia.
  - intros Hvia Hw. subst after. unfold modify. rewrite Hvia.
    by apply save_skips_updated_at.
  - apply modify_refused.
Qed.

Lemma timestamps_on_an_increasing_clock_witness :
  updated_lt
    (BaseModel.mk (Some false) (Some 0%Z) (Some 5%Z))
    (BaseModel.mk (Some true) (Some 0%Z) (Some 6%Z)).
Proof.
  apply (timestamps_on_an_increasing_clock Z.of_nat (BaseModel.new true) 0
           {| object := BaseModel.mk (Some true) (Some 0%Z) (Some 1%Z);
              stored := BaseModel.mk (Some true) (Some 0%Z) (Some 1%Z);
              reads := 2 |}
           [ plain_edit 3 false ]
           {| via := instance_save; wait := 0; refetch := false;
              assign_is_active := Some (Some true);
              assign_created_at := None; assign_updated_at := None;
              update_fields := Some [updated_at_field; is_active_field] |}).
  - intros i j Hij. lia.
  - reflexivity.
  - repeat constructor; simpl; try done.
  - reflexivity.
  - reflexivity.
  - reflexivity.
Defined.
(** ** Normalising twice *)

Lemma isspace_lower_char (c : ascii) :
  Str.isspace (Str.lower_char c) = Str.isspace c.
Proof. destruct c as [[] [] [] [] [] [] [] []]; reflexivity. Qed.

Lemma at_lower_char (c : ascii) :
  Ascii.eqb (Str.lower_char c) "@" = Ascii.eqb c "@".
Proof. destruct c as [[] [] [] [] [] [] [] []]; reflexivity. Qed.

Lemma lower_char_idempotent (c : ascii) :
  Str.lower_char (Str.lower_char c) = Str.lower_char c.
Proof. destruct c as [[] [] [] [] [] [] [] []]; reflexivity. Qed.

Lemma lower_idempotent (s : string) : Str.lower (Str.lower s) = Str.lower s.
Proof.
  induction s as [|c s IH]; simpl; [done|].
  by rewrite lower_char_idempotent, IH.
Qed.

Lemma contains_at_lower (s : string) :
  Str.contains "@" (Str.lower s) = Str.contains "@" s.
Proof.
  induction s as [|c s IH]; simpl; [done|]. by rewrite at_lower_char, IH.
Qed.

Lemma append_cons (c : ascii) (s t : string) :
  String c s +:+ t = String c (s +:+ t).
Proof. reflexivity. Qed.

Lemma append_nil (t : string) : "" +:+ t = t.
Proof. reflexivity. Qed.

(** [rsplit_at] finds the last ["@"]. *)
Lemma rsplit_at_Some (s a b : string) :
  Str.rsplit_at s = Some (a, b) →
  s = a +:+ "@" +:+ b ∧ Str.contains "@" b = false.
Proof.
  revert a b. induction s as [|c s IH]; intros a b; simpl; [done|].
  destruct (Str.rsplit_at s) as [[a' b']|] eqn:Hs.
  - intros [= <- <-]. destruct (IH a' b' eq_refl) as [-> Hb].
    by rewrite append_cons.
  - destruct (Ascii.eqb c "@") eqn:Hc; [|done].
    intros [= <- <-]. apply Ascii.eqb_eq in Hc as ->. split; [done|].
    destruct (Str.contains "@" s) eqn:Hin; [|done].
    exfalso. clear IH. induction s as [|d s IHs]; simpl in *; [done|].
    destruct (Str.rsplit_at s) as [[? ?]|]; [done|].
    destruct (Ascii.eqb d "@"); [done|]. simpl in Hin. by apply IHs.
Qed.

Lemma starts_clean_lstrip (s : string) : starts_clean (Str.lstrip s).
Proof.
  induction s as [|c s IH]; simpl; [done|].
  destruct (Str.isspace c) eqn:Hc; [done|]. simpl. done.
Qed.

Lemma starts_clean_rstrip (s : string) :
  starts_clean s → starts_clean (Str.rstrip s).
Proof.
  destruct s as [|c s]; simpl; [done|]. intros Hc.
  destruct (Str.rstrip s); [rewrite Hc|]; done.
Qed.

Lemma lstrip_clean (s : string) : starts_clean s → Str.lstrip s = s.
Proof. destruct s as [|c s]; simpl; [done|]. by intros ->. Qed.

Lemma rstrip_idempotent (s : string) :
  Str.rstrip (Str.rstrip s) = Str.rstrip s.
Proof.
  induction s as [|c s IH]; simpl; [done|].
  destruct (Str.rstrip s) as [|d r] eqn:Hr.
  - destruct (Str.isspace c) eqn:Hc; simpl; [done|]. by rewrite Hc.
  - change (Str.rstrip (String c (String d r))) with
      (match Str.rstrip (String d r) with
       | "" => if Str.isspace c then "" else String c ""
       | r' => String c r'
       end).
    by rewrite IH.
Qed.

Lemma rstrip_lower (s : string) :
  Str.rstrip (Str.lower s) = Str.lower (Str.rstrip s).
Proof.
  induction s as [|c s IH]; simpl; [done|]. rewrite IH.
  destruct (Str.rstrip s) as [|d r]; simpl; [|done].
  rewrite isspace_lower_char. by destruct (Str.isspace c).
Qed.

Lemma rstrip_after_at (a v : string) :
  Str.rstrip (a +:+ "@" +:+ v) = a +:+ "@" +:+ Str.rstrip v.
Proof.
  induction a as [|c a IH].
  - rewrite !append_nil. change ("@" +:+ v) with (String "@" v).
    change ("@" +:+ Str.rstrip v) with (String "@" (Str.rstrip v)).
    simpl. by destruct (Str.rstrip v).
  - change (String c a +:+ "@" +:+ v) with (String c (a +:+ "@" +:+ v)).
    change (String c a +:+ "@" +:+ Str.rstrip v)
      with (String c (a +:+ "@" +:+ Str.rstrip v)).
    simpl. rewrite IH.
    destruct (a +:+ "@" +:+ Str.rstrip v) eqn:Ha; [|done].
    exfalso. destruct a; discriminate Ha.
Qed.

Lemma append_inv_head (a s t : string) : a +:+ s = a +:+ t → s = t.
Proof.
  induction a as [|c a IH]; [done|]. rewrite !append_cons.
  intros [= H]. by apply IH.
Qed.

Lemma strip_stripped (e : string) :
  starts_clean (Str.strip e) ∧ Str.rstrip (Str.strip e) = Str.strip e.
Proof.
  unfold Str.strip. split.
  - apply starts_clean_rstrip, starts_clean_lstrip.
  - apply rstrip_idempotent.
Qed.

(** Normalising an email that is already normalised changes nothing. *)
Lemma normalize_email_idempotent (email : option string) :
  normalize_email (Some (normalize_email email)) = normalize_email email.
Proof.
  set (e := match email with Some e => e | None => "" end).
  destruct (Str.rsplit_at (Str.strip e)) as [[a b]|] eqn:Hsplit.
  - assert (Hn : normalize_email email = a +:+ "@" +:+ Str.lower b).
    { unfold normalize_email. fold e. by rewrite Hsplit. }
    apply rsplit_at_Some in Hsplit as [Hs Hb].
    destruct (strip_stripped e) as [Hclean Hr]. rewrite Hs in Hclean, Hr.
    rewrite rstrip_after_at in Hr.
    apply append_inv_head in Hr. apply (append_inv_head "@") in Hr.
    assert (Hfix : Str.strip (a +:+ "@" +:+ Str.lower b)
                   = a +:+ "@" +:+ Str.lower b).
    { unfold Str.strip. rewrite lstrip_clean.
      - by rewrite rstrip_after_at, rstrip_lower, Hr.
      - destruct a; [reflexivity | exact Hclean]. }
    rewrite Hn. unfold normalize_email. rewrite Hfix, rsplit_at_last.
    + by rewrite lower_idempotent.
    + by rewrite contains_at_lower.
  - assert (Hn : normalize_email email = e).
    { unfold normalize_email. fold e. by rewrite Hsplit. }
    rewrite Hn. unfold normalize_email. by rewrite Hsplit.
Qed.

(** X14: the email stored by user-creation is a fixed point of the
    normalisation: normalising the stored address again gives the stored
    address. *)
Theorem create_user_stores_a_normal_form
    (make_password : option string → string) (next_id : UserDb → nat)
    (enf : bool) (email password : option string) (xf : extra_fields)
    (db db' : UserDb) (user : User.t) :
  create_user make_password next_id enf email password xf db
    = (Return user, db') →
  normalize_email (Some (User.email user)) = User.email user.
Proof.
  intros Hrun. apply create_user_email in Hrun. rewrite Hrun.
  apply normalize_email_idempotent.
Qed.

Lemma create_user_stores_a_normal_form_witness :
  normalize_email (Some "Jane.Doe@mail.example.com")
  = "Jane.Doe@mail.example.com".
Proof.
  apply (create_user_stores_a_normal_form sample_hasher sample_next_id false
           (Some "  Jane.Doe@Mail.EXAMPLE.com ") (Some "secret")
           no_extra_fields empty_db
           (snd (create_user sample_hasher sample_next_id false
                   (Some "  Jane.Doe@Mail.EXAMPLE.com ") (Some "secret")
                   no_extra_fields empty_db))
           (User.mk (Some 1) "hashed$secret" None (Some false)
              "Jane.Doe@mail.example.com" (Some "") (Some true)
              (Some false))).
  reflexivity.
Defined.

(** ** References across cases *)

(** What is collected when one case is deleted. *)
Lemma collect_case db pk :
  collect db ∅ {[pk]} ∅ ∅ =
  {| del_victims := ∅;
     del_cases := {[pk]};
     del_locations := referrers (Some ∘ Location.case) {[pk]} (locations db);
     del_suspects := referrers (Some ∘ Suspect.case) {[pk]} (suspects db);
     del_motives :=
       referrers (Some ∘ Motive.suspect)
         (referrers (Some ∘ Suspect.case) {[pk]} (suspects db)) (motives db);
     del_testimonies :=
       referrers (Some ∘ Testimony.suspect)
         (referrers (Some ∘ Suspect.case) {[pk]} (suspects db))
         (testimonies db);
     del_clues :=
       referrers (Some ∘ Clue.case) {[pk]} (clues db)
       ∪ referrers (Some ∘ Clue.location)
           (referrers (Some ∘ Location.case) {[pk]} (locations db))
           (clues db);
     del_evidences := referrers (Some ∘ Evidence.case) {[pk]} (evidences db);
     del_messages := referrers (Some ∘ Message.case) {[pk]} (messages db);
     del_calls := referrers (Some ∘ CallRecord.case) {[pk]} (calls db) |}.
Proof.
  unfold collect. rewrite cascade_of_empty. policies.
  rewrite !(left_id_L ∅ (∪)), !(right_id_L ∅ (∪)). reflexivity.
Qed.

Lemma points_into_suspects_of_case {R : Type} (fk : R → option nat) db pk x :
  points_into fk (referrers (Some ∘ Suspect.case) {[pk]} (suspects db)) x
  ↔ ∃ s, fk x = Some s ∧ suspect_of_case db pk s.
Proof.
  unfold points_into, suspect_of_case. destruct (fk x) as [s|].
  - rewrite elem_of_referrers. unfold points_into. simpl. split.
    + intros (y & Hy & Hp). exists s. split; [done|]. exists y. set_solver.
    + intros (s' & [= <-] & y & Hy & <-). exists y. set_solver.
  - split; [done | by intros (? & [=] & _)].
Qed.

Lemma points_into_locations_of_case {R : Type} (fk : R → option nat) db pk x :
  points_into fk (referrers (Some ∘ Location.case) {[pk]} (locations db)) x
  ↔ ∃ l, fk x = Some l ∧ location_of_case db pk l.
Proof.
  unfold points_into, location_of_case. destruct (fk x) as [s|].
  - rewrite elem_of_referrers. unfold points_into. simpl. split.
    + intros (y & Hy & Hp). exists s. split; [done|]. exists y. set_solver.
    + intros (s' & [= <-] & y & Hy & <-). exists y. set_solver.
  - split; [done | by intros (? & [=] & _)].
Qed.

Lemma not_referrer_of_case {R : Type} (case : R → nat) (pk : nat)
    (tbl : gmap nat R) k x :
  tbl !! k = Some x → case x ≠ pk →
  k ∉ referrers (Some ∘ case) {[pk]} tbl.
Proof.
  intros Hk Hne. rewrite elem_of_referrers. intros (y & Hy & Hp).
  rewrite Hk in Hy. injection Hy as <-. unfold points_into in Hp.
  simpl in Hp. set_solver.
Qed.

(** X15: deleting a Case clears the references that rows of other cases
    hold to its suspects and locations.  A Message or CallRecord of
    another case whose [related_suspect] names a suspect of the deleted
    case stays, with that reference absent and nothing else changed, and
    so does a Clue of another case, provided its location is not one of
    the deleted case; a Clue of another case found at a location of the
    deleted case is removed with that location.  An Evidence of another
    case stays with [obtained_from], or [related_suspect], absent when it
    named a location, or a suspect, of the deleted case; a Message of
    another case that names no suspect of the deleted case is the row it
    was. *)
Theorem delete_case_clears_references_from_other_cases (db : Db) (pk : nat) :
  (∀ k x s, messages db !! k = Some x → Message.case x ≠ pk →
     Message.related_suspect x = Some s → suspect_of_case db pk s →
     messages (delete_case pk db) !! k
       = Some (Message.clear_related_suspect x))
  ∧ (∀ k x s, calls db !! k = Some x → CallRecord.case x ≠ pk →
       CallRecord.related_suspect x = Some s → suspect_of_case db pk s →
       calls (delete_case pk db) !! k
         = Some (CallRecord.clear_related_suspect x))
  ∧ (∀ k x s, clues db !! k = Some x → Clue.case x ≠ pk →
       ¬ location_of_case db pk (Clue.location x) →
       Clue.related_suspect x = Some s → suspect_of_case db pk s →
       clues (delete_case pk db) !! k = Some (Clue.clear_related_suspect x))
  ∧ (∀ k x, clues db !! k = Some x → Clue.case x ≠ pk →
       location_of_case db pk (Clue.location x) →
       clues (delete_case pk db) !! k = None)
  ∧ (∀ k x l, evidences db !! k = Some x → Evidence.case x ≠ pk →
       Evidence.obtained_from x = Some l → location_of_case db pk l →
       ∃ x', evidences (delete_case pk db) !! k = Some x'
             ∧ Evidence.obtained_from x' = None)
  ∧ (∀ k x s, evidences db !! k = Some x → Evidence.case x ≠ pk →
       Evidence.related_suspect x = Some s → suspect_of_case db pk s →
       ∃ x', evidences (delete_case pk db) !! k = Some x'
             ∧ Evidence.related_suspect x' = None)
  ∧ (∀ k x, messages db !! k = Some x → Message.case x ≠ pk →
       (∀ s, Message.related_suspect x = Some s → ¬ suspect_of_case db pk s) →
       messages (delete_case pk db) !! k = Some x).
Proof.
  unfold delete_case. rewrite collect_case. unfold execute. project.
  split_and!.
  - intros k x s Hk Hc Hrs Hs.
    rewrite lookup_remove_out by by eapply not_referrer_of_case.
    apply (lookup_set_null_hit _ Message.clear_related_suspect); [done|].
    apply points_into_suspects_of_case. eauto.
  - intros k x s Hk Hc Hrs Hs.
    rewrite lookup_remove_out by by eapply not_referrer_of_case.
    apply (lookup_set_null_hit _ CallRecord.clear_related_suspect); [done|].
    apply points_into_suspects_of_case. eauto.
  - intros k x s Hk Hc Hl Hrs Hs.
    rewrite lookup_remove_out.
    + apply (lookup_set_null_hit _ Clue.clear_related_suspect); [done|].
      apply points_into_suspects_of_case. eauto.
    + rewrite elem_of_union. intros [Hin | Hin].
      * by apply (not_referrer_of_case Clue.case pk (clues db) k x).
      * apply elem_of_referrers in Hin as (y & Hy & Hp).
        rewrite Hk in Hy. injection Hy as <-.
        apply points_into_locations_of_case in Hp as (l & [= <-] & Hp).
        done.
  - intros k x Hk Hc Hl.
    apply lookup_remove_in. apply elem_of_union_r, elem_of_referrers.
    exists x. split; [done|]. apply points_into_locations_of_case. eauto.
  - intros k x l Hk Hc Hof Hl.
    rewrite lookup_remove_out by by eapply not_referrer_of_case.
    assert (Hin : nulled_by Evidence.obtained_from_on_delete
              Evidence.obtained_from Evidence.clear_obtained_from
              (referrers (Some ∘ Location.case) {[pk]} (locations db))
              (evidences db) !! k = Some (Evidence.clear_obtained_from x)).
    { apply (lookup_set_null_hit _ Evidence.clear_obtained_from); [done|].
      apply points_into_locations_of_case. eauto. }
    policies. rewrite lookup_fmap, Hin. simpl.
    case_decide; eexists; (split; [reflexivity | reflexivity]).
  - intros k x s Hk Hc Hrs Hs.
    rewrite lookup_remove_out by by eapply not_referrer_of_case.
    policies. rewrite !lookup_fmap, Hk. simpl.
    eexists. split; [reflexivity|].
    rewrite decide_True; [by case_decide|].
    apply points_into_suspects_of_case. exists s. split; [|done].
    by case_decide.
  - intros k x Hk Hc Hno.
    rewrite lookup_remove_out by by eapply not_referrer_of_case.
    apply lookup_set_null_miss; [done|].
    rewrite points_into_suspects_of_case. intros (s & Hrs & Hs).
    by eapply Hno.
Qed.

Lemma delete_case_clears_references_from_other_cases_witness :
  messages (delete_case 0 second_db) !! 0
  = Some (Message.mk sample_base 1 None (Some "Bram") 9%Z "Tonight" None)
  ∧ clues (delete_case 0 second_db) !! 1
    = Some (Clue.mk sample_base 1 1 (Some "Rope") 5%Z None)
  ∧ clues (delete_case 0 second_db) !! 2 = None
  ∧ ∃ x', evidences (delete_case 0 second_db) !! 0 = Some x'
          ∧ Evidence.obtained_from x' = None.
Proof.
  destruct (delete_case_clears_references_from_other_cases second_db 0)
    as (Hm & _ & Hc & Hgone & He & _ & _).
  assert (Hada : suspect_of_case second_db 0 0).
  { exists (Suspect.mk sample_base 0 "Ada" 40 None None None None).
    split; reflexivity. }
  split_and!.
  - apply (Hm 0 (Message.mk sample_base 1 None (Some "Bram") 9%Z "Tonight"
                   (Some 0)) 0); [reflexivity | discriminate | reflexivity |].
    exact Hada.
  - apply (Hc 1 (Clue.mk sample_base 1 1 (Some "Rope") 5%Z (Some 0)) 0);
      [reflexivity | discriminate | | reflexivity | exact Hada].
    intros (l & Hl & Hcase). vm_compute in Hl. injection Hl as <-.
    discriminate Hcase.
  - apply (Hgone 2 (Clue.mk sample_base 1 0 None 6%Z None));
      [reflexivity | discriminate |].
    exists (Location.mk sample_base 0 "Cellar" None true).
    split; reflexivity.
  - apply (He 0 (Evidence.mk sample_base 1 "Ledger" (Some 0) 4%Z (Some 1)) 0);
      [reflexivity | discriminate | reflexivity |].
    exists (Location.mk sample_base 0 "Cellar" None true).
    split; reflexivity.
Defined.

